(** * save_resume: throttled persistence of per-torrent resume data

    A shallow embedding of [src/save_resume.cpp] (libtorrent): the alert
    handler that keeps the set of live torrents and a wrap-around cursor
    into it, the throttled save pass, [save_all] and [load].

    Conventions of the embedding.
    - [m_torrents] is a [boost::unordered_set<torrent_handle>]: a node based
      container with unique keys.  It is a duplicate-free list in iteration
      order.  An insertion may put the new node anywhere and, when the
      table is rehashed, bring the old nodes into another order; an erasure
      keeps the order of the nodes that stay.  An iterator names the node it
      stands on, [None] being [end()], and goes on naming it while the node
      is in the set.
    - Operations the C++ library leaves undefined (incrementing or erasing
      [end()], dereferencing it) and failed [TORRENT_ASSERT]s end the run
      with a [Fault] instead of a state.
    - The engine, the codec, the path helpers and the build configuration
      live in headers outside this file; they are the interface [Host].
    - A [ptime] counts the ticks of the clock, of which there are
      [ticks_per_second]; [total_seconds] cuts a difference of two of them
      down to whole seconds.  [time_now()] is the cached clock of the
      session and has one value during one call of the handler.
    - [int] is the 32-bit two's complement integer: a value that does not
      fit wraps round, as it does in the compiled code.  The in-flight
      counter, which moves by one, is left unbounded. *)

From stdpp Require Import gmap strings list fin_maps.
From Stdlib Require Import ZArith Lia.
From Stdlib Require Import Ascii.

Local Open Scope Z_scope.

(** ** Handles, time, faults *)

Definition torrent_handle := nat.

(** A point in time and a difference of two, in ticks of the clock. *)
Definition ptime := Z.
Definition time_duration := Z.

(** ** The type int *)

Definition int_min : Z := - 2 ^ 31.
Definition int_max : Z := 2 ^ 31 - 1.

Definition in_int (z : Z) : Prop := int_min ≤ z ≤ int_max.

(** The int a value becomes when it is stored in one. *)
Definition to_int (z : Z) : Z := (z + 2 ^ 31) `mod` 2 ^ 32 - 2 ^ 31.

(** [a * b] on two ints. *)
Definition int_mul (a b : Z) : Z := to_int (a * b).

Inductive fault :=
| assertion_failed
| undefined_behaviour.

Inductive outcome (A : Type) :=
| Done (a : A)
| Fault (f : fault).
Arguments Done {A} a.
Arguments Fault {A} f.

#[export] Instance outcome_ret : MRet outcome := λ A a, Done a.
#[export] Instance outcome_bind : MBind outcome := λ A B k m,
  match m with
  | Done a => k a
  | Fault f => Fault f
  end.

(** ** The collaborators of the scheduler *)

Class Host := {
  (* the engine behind [session] and [torrent_handle] *)
  session : Type;
  has_metadata : session → torrent_handle → bool;
  need_save_resume_data : session → torrent_handle → bool;
  save_resume_data : torrent_handle → session → session;
  (* the iteration order of the container once a new key is in it: the
     hash decides where the new node goes and, when the table grows, where
     the old ones go *)
  bucket_order : torrent_handle → list torrent_handle → list torrent_handle;
  bucket_order_perm : ∀ h l, h ∉ l → bucket_order h l ≡ₚ h :: l;
  (* the resolution of the clock *)
  ticks_per_second : Z;
  ticks_per_second_pos : 0 < ticks_per_second;
  (* resume payload and its codec *)
  entry : Type;
  bencode : entry → string;
  info_hash_string : entry → string;
  (* path helpers *)
  to_hex : string → string;
  combine_path : string → string → string;
  extension : string → string;
  (* every field of add_torrent_params but resume_data *)
  torrent_params : Type;
  (* TORRENT_ASSERT is compiled in (debug) or out (release) *)
  use_asserts : bool
}.

(** ** Iterators into the unordered set *)

Definition iterator := option torrent_handle.

Definition set_begin (l : list torrent_handle) : iterator := head l.

Definition set_find (h : torrent_handle) (l : list torrent_handle) : iterator :=
  if decide (h ∈ l) then Some h else None.

(** The node after [h]; the outer [None] means [h] is on no node of [l]. *)
Fixpoint node_after (h : torrent_handle) (l : list torrent_handle)
  : option iterator :=
  match l with
  | [] => None
  | x :: l' => if decide (x = h) then Some (head l') else node_after h l'
  end.

(** [++it] *)
Definition iter_incr (l : list torrent_handle) (it : iterator) : outcome iterator :=
  match it with
  | None => Fault undefined_behaviour
  | Some h =>
      match node_after h l with
      | Some it' => Done it'
      | None => Fault undefined_behaviour
      end
  end.

(** [m_torrents.erase(it)] *)
Definition set_erase (it : iterator) (l : list torrent_handle)
  : outcome (list torrent_handle) :=
  match it with
  | None => Fault undefined_behaviour
  | Some h => Done (filter (λ x, x ≠ h) l)
  end.

Section Scheduler.
Context {host : Host}.

(** [m_torrents.insert(h)]: nothing happens when the key is present. *)
Definition set_insert (h : torrent_handle) (l : list torrent_handle)
  : list torrent_handle :=
  if decide (h ∈ l) then l else bucket_order h l.

(** ** Alerts *)

Inductive alert :=
| add_torrent_alert (handle : torrent_handle)
| torrent_removed_alert (handle : torrent_handle) (info_hash : string)
| stats_alert (handle : torrent_handle)
| save_resume_data_alert (handle : torrent_handle) (resume_data : entry)
| save_resume_data_failed_alert (handle : torrent_handle)
| metadata_received_alert (handle : torrent_handle).

(** The alert types the constructor subscribes to: additions, removals, the
    periodic statistics, completed saves and metadata.  Failed saves are
    cast for in the handler but are not on the list. *)
Definition subscribed (a : alert) : bool :=
  match a with
  | save_resume_data_failed_alert _ => false
  | _ => true
  end.

(** ** The object and what it acts on *)

Inductive engine_call :=
| ask_need_save (h : torrent_handle)
| request_save (h : torrent_handle).

Record world := World {
  m_ses : session;
  m_resume_dir : string;
  m_torrents : list torrent_handle;
  m_cursor : iterator;
  m_last_save : ptime;
  m_interval : Z;
  m_num_in_flight : Z;
  (* calls made to the engine, oldest first *)
  calls : list engine_call;
  (* the files of the resume directory, by path *)
  disk : gmap string string
}.

Definition set_ses (e : session) (w : world) : world :=
  World e (m_resume_dir w) (m_torrents w) (m_cursor w) (m_last_save w)
        (m_interval w) (m_num_in_flight w) (calls w) (disk w).
Definition set_torrents (l : list torrent_handle) (w : world) : world :=
  World (m_ses w) (m_resume_dir w) l (m_cursor w) (m_last_save w)
        (m_interval w) (m_num_in_flight w) (calls w) (disk w).
Definition set_cursor (c : iterator) (w : world) : world :=
  World (m_ses w) (m_resume_dir w) (m_torrents w) c (m_last_save w)
        (m_interval w) (m_num_in_flight w) (calls w) (disk w).
Definition set_last_save (t : ptime) (w : world) : world :=
  World (m_ses w) (m_resume_dir w) (m_torrents w) (m_cursor w) t
        (m_interval w) (m_num_in_flight w) (calls w) (disk w).
Definition set_num_in_flight (n : Z) (w : world) : world :=
  World (m_ses w) (m_resume_dir w) (m_torrents w) (m_cursor w) (m_last_save w)
        (m_interval w) n (calls w) (disk w).
Definition set_calls (cs : list engine_call) (w : world) : world :=
  World (m_ses w) (m_resume_dir w) (m_torrents w) (m_cursor w) (m_last_save w)
        (m_interval w) (m_num_in_flight w) cs (disk w).
Definition set_disk (d : gmap string string) (w : world) : world :=
  World (m_ses w) (m_resume_dir w) (m_torrents w) (m_cursor w) (m_last_save w)
        (m_interval w) (m_num_in_flight w) (calls w) d.

(** The constructor: [m_interval(minutes(5))], an empty set, the cursor at
    [m_torrents.begin()], which is [end()]. *)
Definition save_resume (s : session) (resume_dir : string) (now : ptime)
  (files : gmap string string) : world :=
  World s resume_dir [] (set_begin []) now 300 0 [] files.

(** [h.need_save_resume_data()] *)
Definition query_need_save (h : torrent_handle) (w : world) : bool * world :=
  (need_save_resume_data (m_ses w) h,
   set_calls (calls w ++ [ask_need_save h]) w).

(** [h.save_resume_data(torrent_handle::save_info_dict)] *)
Definition call_save_resume_data (h : torrent_handle) (w : world) : world :=
  set_calls (calls w ++ [request_save h])
            (set_ses (save_resume_data h (m_ses w)) w).

Definition incr_in_flight (w : world) : world :=
  set_num_in_flight (m_num_in_flight w + 1) w.
Definition decr_in_flight (w : world) : world :=
  set_num_in_flight (m_num_in_flight w - 1) w.

Definition torrent_assert (b : bool) : outcome unit :=
  if use_asserts && negb b then Fault assertion_failed else Done tt.

Definition resume_file (dir hash : string) : string :=
  combine_path dir (to_hex hash +:+ ".resume").

(** ** handle_alert, lines 82-138: the reaction to the alert itself *)

Definition dispatch (a : alert) (w : world) : outcome world :=
  match a with
  | add_torrent_alert h =>
      let has_md := has_metadata (m_ses w) h in
      let w := set_torrents (set_insert h (m_torrents w)) w in
      let w := if has_md then incr_in_flight (call_save_resume_data h w) else w in
      Done (if decide (m_cursor w = None)
            then set_cursor (set_begin (m_torrents w)) w else w)
  | metadata_received_alert h =>
      Done (incr_in_flight (call_save_resume_data h w))
  | torrent_removed_alert h ih =>
      let i := set_find h (m_torrents w) in
      _ ← torrent_assert (bool_decide (i ≠ None));
      cw ← (if decide (m_cursor w = i)
            then c ← iter_incr (m_torrents w) (m_cursor w);
                 Done (c, bool_decide (c = None))
            else Done (m_cursor w, false));
      let w := set_cursor cw.1 w in
      let w := set_disk (delete (resume_file (m_resume_dir w) ih) (disk w)) w in
      l ← set_erase i (m_torrents w);
      let w := set_torrents l w in
      Done (if (cw.2 : bool) then set_cursor (set_begin (m_torrents w)) w else w)
  | save_resume_data_alert h rd =>
      _ ← torrent_assert (bool_decide (0 < m_num_in_flight w));
      let w := decr_in_flight w in
      Done (set_disk (<[resume_file (m_resume_dir w) (info_hash_string rd)
                        := bencode rd]> (disk w)) w)
  | save_resume_data_failed_alert h =>
      _ ← torrent_assert (bool_decide (0 < m_num_in_flight w));
      Done (decr_in_flight w)
  | stats_alert _ => Done w
  end.

(** ** handle_alert, lines 140-166: the throttled pass *)

(** [total_seconds(d)]: the whole seconds in [d], as an int. *)
Definition total_seconds (d : time_duration) : Z :=
  to_int (d `quot` ticks_per_second).

(** The whole seconds since the last save, before they are stored in an
    int. *)
Definition elapsed_seconds (now : ptime) (w : world) : Z :=
  (now - m_last_save w) `quot` ticks_per_second.

(** [num_to_save] as the loop finds it.  [num_torrents] and the product are
    ints; C++ [/] truncates ([Z.quot]); [m_interval] is kept as the seconds
    [total_seconds] reports for it. *)
Definition num_to_save (now : ptime) (w : world) : Z :=
  let num_torrents := to_int (Z.of_nat (length (m_torrents w))) in
  let num_to_save :=
    int_mul num_torrents (total_seconds (now - m_last_save w))
      `quot` m_interval w in
  Z.min num_to_save num_torrents.

(** One turn of the [while] loop. *)
Definition save_one (now : ptime) (w : world) : outcome world :=
  let w := if decide (m_cursor w = None)
           then set_cursor (set_begin (m_torrents w)) w else w in
  match m_cursor w with
  | None => Fault undefined_behaviour
  | Some h =>
      let '(need, w) := query_need_save h w in
      let w := if need then incr_in_flight (call_save_resume_data h w) else w in
      let w := set_last_save now w in
      c ← iter_incr (m_torrents w) (m_cursor w);
      Done (set_cursor c w)
  end.

(** [while (num_to_save > 0) { ...; --num_to_save; }] *)
Fixpoint save_loop (turns : nat) (now : ptime) (w : world) : outcome world :=
  match turns with
  | O => Done w
  | S turns' => w' ← save_one now w; save_loop turns' now w'
  end.

Definition save_pass (now : ptime) (w : world) : outcome world :=
  if decide (m_torrents w = []) then Done w
  else save_loop (Z.to_nat (num_to_save now w)) now w.

Definition handle_alert (now : ptime) (a : alert) (w : world) : outcome world :=
  w' ← dispatch a w; save_pass now w'.

(** ** save_all *)

Definition save_all_visit (w : world) (h : torrent_handle) : world :=
  let '(need, w) := query_need_save h w in
  if need then incr_in_flight (call_save_resume_data h w) else w.

Definition save_all (w : world) : world :=
  foldl save_all_visit w (m_torrents w).

(** ** load *)

(** What [directory] yields: the end, an error, or a name and the rest. *)
Inductive directory :=
| dir_done
| dir_error (code : nat)
| dir_file (name : string) (next : directory).

Record add_torrent_params := {
  other_fields : torrent_params;
  resume_data_of : option string
}.

(** [load]: the error code left in [ec] and the requests handed to
    [async_add_torrent], oldest first.  [load_file] succeeds on the files
    the disk can deliver. *)
Fixpoint load (dir : directory) (model : add_torrent_params) (w : world)
  : option nat * list add_torrent_params :=
  match dir with
  | dir_done => (None, [])
  | dir_error code => (Some code, [])
  | dir_file name next =>
      if decide (extension name = ".resume") then
        match disk w !! combine_path (m_resume_dir w) name with
        | None => load next model w
        | Some resume =>
            let p := {| other_fields := other_fields model;
                        resume_data_of := Some resume |} in
            let r := load next model w in
            (r.1, p :: r.2)
        end
      else load next model w
  end.

Fixpoint listing (names : list string) : directory :=
  match names with
  | [] => dir_done
  | name :: rest => dir_file name (listing rest)
  end.

(** ** Runs: alerts delivered and calls made, one after the other *)

Inductive action :=
| deliver (a : alert)
| call_save_all.

(** One thing that happens to the object: the clock and the engine as they
    are at that moment, and what is done. *)
Record tick := {
  tick_now : ptime;
  tick_ses : session;
  tick_action : action
}.

Definition step (t : tick) (w : world) : outcome world :=
  let w := set_ses (tick_ses t) w in
  match tick_action t with
  | deliver a => handle_alert (tick_now t) a w
  | call_save_all => Done (save_all w)
  end.

Fixpoint run (ticks : list tick) (w : world) : outcome world :=
  match ticks with
  | [] => Done w
  | t :: rest => w' ← step t w; run rest w'
  end.

(** ** What a trace of engine calls says *)

Definition saves_requested (cs : list engine_call) : list torrent_handle :=
  omap (λ c, match c with request_save h => Some h | _ => None end) cs.

Definition slots_visited (cs : list engine_call) : list torrent_handle :=
  omap (λ c, match c with ask_need_save h => Some h | _ => None end) cs.

Definition is_completed (t : tick) : bool :=
  match tick_action t with
  | deliver (save_resume_data_alert _ _) => true
  | _ => false
  end.

Definition is_failed (t : tick) : bool :=
  match tick_action t with
  | deliver (save_resume_data_failed_alert _) => true
  | _ => false
  end.

Definition completed (ticks : list tick) : nat :=
  length (filter (λ t, is_completed t = true) ticks).
Definition failed (ticks : list tick) : nat :=
  length (filter (λ t, is_failed t = true) ticks).

(** Every save-completed and save-failed notification answers one request
    of its own that was issued before it: when it arrives, fewer answers
    have been delivered than requests have been issued. *)
Definition answers_matched (w0 : world) (ticks : list tick) : Prop :=
  ∀ pre t post wp,
    ticks = pre ++ t :: post →
    is_completed t || is_failed t = true →
    run pre w0 = Done wp →
    (completed pre + failed pre < length (saves_requested (calls wp)))%nat.

(** The cursor is [end()] or stands on a node of the set. *)
Definition cursor_ok (w : world) : Prop :=
  NoDup (m_torrents w) ∧ ∀ h, m_cursor w = Some h → h ∈ m_torrents w.

Definition cursor_okb (w : world) : bool :=
  bool_decide (NoDup (m_torrents w)) &&
  match m_cursor w with
  | None => true
  | Some h => bool_decide (h ∈ m_torrents w)
  end.

(** The state a run ends in (the state it started in, should it fault). *)
Definition final (ticks : list tick) (w : world) : world :=
  match run ticks w with
  | Done w' => w'
  | Fault _ => w
  end.

Definition cursor_on_entity (w : world) : Prop :=
  ∃ h, m_cursor w = Some h ∧ h ∈ m_torrents w.

(** The node the loop turns to: the cursor, or the first node when the
    cursor is [end()]. *)
Definition slot_of w : iterator :=
  if decide (m_cursor w = None) then set_begin (m_torrents w) else m_cursor w.

(** The state one turn of the loop leaves, visiting [h] and moving on to [c]. *)
Definition after_slot (now : ptime) h (c : iterator) w : world :=
  let need := need_save_resume_data (m_ses w) h in
  let w1 := set_calls (calls w ++ [ask_need_save h]) w in
  set_cursor c
    (set_last_save now
       (if need then incr_in_flight (call_save_resume_data h w1) else w1)).

(** [w'] extends the trace of [w] by [extra] and moved the counter by the
    requests in [extra] less [answers]. *)
Definition accounts (answers : Z) (w w' : world) (extra : list engine_call) : Prop :=
  calls w' = calls w ++ extra ∧
  m_num_in_flight w' =
    m_num_in_flight w + Z.of_nat (length (saves_requested extra)) - answers.

Definition answers_of (a : alert) : Z :=
  match a with
  | save_resume_data_alert _ _ | save_resume_data_failed_alert _ => 1
  | _ => 0
  end.


Definition answers_of_tick (t : tick) : Z :=
  match tick_action t with
  | deliver a => answers_of a
  | call_save_all => 0
  end.


(** The alert meets what the handler takes for granted: a removed torrent
    is tracked, and an answer finds a request in flight (or assertions are
    compiled out). *)
Definition deliverable (a : alert) (w : world) : Prop :=
  match a with
  | torrent_removed_alert h _ => h ∈ m_torrents w
  | save_resume_data_alert _ _ | save_resume_data_failed_alert _ =>
      use_asserts = false ∨ 0 < m_num_in_flight w
  | _ => True
  end.

(** Erasing the node of [h], which splits the iteration order in [l1] before
    it and [l2] after it. *)
Definition after_removal h (ih : string) (l1 l2 : list torrent_handle) w : world :=
  World (m_ses w) (m_resume_dir w) (l1 ++ l2)
        (if decide (m_cursor w = Some h) then head (l2 ++ l1) else m_cursor w)
        (m_last_save w) (m_interval w) (m_num_in_flight w) (calls w)
        (delete (resume_file (m_resume_dir w) ih) (disk w)).

(** ** The order in which a pass meets the torrents *)

(** The nodes before the node of [h], and those from it on. *)
Fixpoint before_node (h : torrent_handle) (l : list torrent_handle)
  : list torrent_handle :=
  match l with
  | [] => []
  | x :: l' => if decide (x = h) then [] else x :: before_node h l'
  end.

Fixpoint from_node (h : torrent_handle) (l : list torrent_handle)
  : list torrent_handle :=
  match l with
  | [] => []
  | x :: l' => if decide (x = h) then l else from_node h l'
  end.

(** The set, once round, starting at the node the loop turns to next. *)
Definition round_from (w : world) : list torrent_handle :=
  match slot_of w with
  | None => m_torrents w
  | Some h => from_node h (m_torrents w) ++ before_node h (m_torrents w)
  end.

(** A directory that yields [names] and then goes on as [rest]. *)
Fixpoint listing_then (names : list string) (rest : directory) : directory :=
  match names with
  | [] => rest
  | name :: names' => dir_file name (listing_then names' rest)
  end.

(** The number of names a directory yields before its end or its error. *)
Fixpoint dir_length (dir : directory) : nat :=
  match dir with
  | dir_file _ next => S (dir_length next)
  | _ => O
  end.

Definition is_removal (a : alert) : bool :=
  match a with
  | torrent_removed_alert _ _ => true
  | _ => false
  end.

Definition is_save_completed (a : alert) : bool :=
  match a with
  | save_resume_data_alert _ _ => true
  | _ => false
  end.

End Scheduler.

(** ** A concrete host, to run the code on

    The engine is the list of torrents with unsaved progress and the list of
    those with metadata; requesting the resume data of a torrent clears its
    unsaved flag.  New nodes go to the end of the iteration order, the
    clock ticks a thousand times a second.  Release build. *)
Module Sample.

Record engine := {
  dirty : list torrent_handle;
  with_metadata : list torrent_handle
}.

Definition hex_digit (n : N) : ascii :=
  match n with
  | 0 => "0" | 1 => "1" | 2 => "2" | 3 => "3" | 4 => "4" | 5 => "5"
  | 6 => "6" | 7 => "7" | 8 => "8" | 9 => "9" | 10 => "a" | 11 => "b"
  | 12 => "c" | 13 => "d" | 14 => "e" | _ => "f"
  end%N%char.

Fixpoint hex (s : string) : string :=
  match s with
  | EmptyString => EmptyString
  | String c rest =>
      String (hex_digit (N.div (N_of_ascii c) 16))
        (String (hex_digit (N.modulo (N_of_ascii c) 16)) (hex rest))
  end.

(** The text from the last dot on, nothing when a slash comes first. *)
Fixpoint suffix_from_dot (s : string) : option string :=
  match s with
  | EmptyString => None
  | String c rest =>
      match suffix_from_dot rest with
      | Some e => Some e
      | None =>
          if decide (c = "."%char) then Some s
          else None
      end
  end.

Record payload := {
  payload_hash : string;
  payload_rest : string
}.

(** New nodes go to the end of the iteration order. *)
Definition append_order_perm (h : torrent_handle) (l : list torrent_handle)
    (_ : h ∉ l) : l ++ [h] ≡ₚ h :: l :=
  Permutation_sym (Permutation_cons_append l h).

#[export] Instance host : Host := {|
  session := engine;
  has_metadata e h := bool_decide (h ∈ with_metadata e);
  need_save_resume_data e h := bool_decide (h ∈ dirty e);
  save_resume_data h e :=
    {| dirty := filter (λ x, x ≠ h) (dirty e);
       with_metadata := with_metadata e |};
  bucket_order h l := l ++ [h];
  bucket_order_perm := append_order_perm;
  ticks_per_second := 1000;
  ticks_per_second_pos := eq_refl;
  entry := payload;
  bencode p := "d9:info-hash" +:+ payload_hash p +:+ payload_rest p +:+ "e";
  info_hash_string := payload_hash;
  to_hex := hex;
  combine_path dir f := dir +:+ "/" +:+ f;
  extension f := default "" (suffix_from_dot f);
  torrent_params := string;
  use_asserts := false
|}.

(** The same host, built with assertions. *)
Definition debug_host : Host := {|
  session := engine;
  has_metadata e h := bool_decide (h ∈ with_metadata e);
  need_save_resume_data e h := bool_decide (h ∈ dirty e);
  save_resume_data h e :=
    {| dirty := filter (λ x, x ≠ h) (dirty e);
       with_metadata := with_metadata e |};
  bucket_order h l := l ++ [h];
  bucket_order_perm := append_order_perm;
  ticks_per_second := 1000;
  ticks_per_second_pos := eq_refl;
  entry := payload;
  bencode p := "d9:info-hash" +:+ payload_hash p +:+ payload_rest p +:+ "e";
  info_hash_string := payload_hash;
  to_hex := hex;
  combine_path dir f := dir +:+ "/" +:+ f;
  extension f := default "" (suffix_from_dot f);
  torrent_params := string;
  use_asserts := true
|}.

Definition all_dirty (l : list torrent_handle) : engine :=
  {| dirty := l; with_metadata := [] |}.

(** An alert delivered [secs] seconds after the clock read 0. *)
Definition at_time (secs : Z) (e : engine) (a : alert) : tick :=
  {| tick_now := secs * 1000; tick_ses := e; tick_action := deliver a |}.

Definition fresh : world := save_resume (all_dirty []) "resume" 0 ∅.

(** Torrent 1 has its metadata, torrents 2 and 3 have unsaved progress. *)
Definition seeded : engine := {| dirty := [2; 3]%nat; with_metadata := [1]%nat |}.

Definition payload_ab : entry :=
  {| payload_hash := "ab"; payload_rest := "4:name1:x" |}.

(** Torrent 1 is added and its resume data arrives. *)
Definition answered_run : list tick :=
  [at_time 0 seeded (add_torrent_alert 1%nat);
   at_time 5 seeded (save_resume_data_alert 1%nat payload_ab)].

(** Three torrents with unsaved progress, and two alerts, half an interval
    apart, that bring the first interval to its end. *)
Definition two_half_intervals : list tick :=
  [at_time 0 (all_dirty [1; 2; 3]%nat) (add_torrent_alert 1%nat);
   at_time 0 (all_dirty [1; 2; 3]%nat) (add_torrent_alert 2%nat);
   at_time 0 (all_dirty [1; 2; 3]%nat) (add_torrent_alert 3%nat);
   at_time 150 (all_dirty [1; 2; 3]%nat) (stats_alert 1%nat);
   at_time 300 (all_dirty [1; 2; 3]%nat) (stats_alert 1%nat)].

(** Two torrents, a pass over both of them, and the removal of the first. *)
Definition pass_then_removal : list tick :=
  [at_time 0 (all_dirty [1; 2]%nat) (add_torrent_alert 1%nat);
   at_time 0 (all_dirty [1; 2]%nat) (add_torrent_alert 2%nat);
   at_time 300 (all_dirty [1; 2]%nat) (stats_alert 1%nat);
   at_time 300 (all_dirty [1; 2]%nat) (torrent_removed_alert 1%nat "ab")].

(** The same directory, its fourth resume file readable but holding bytes
    that are no resume record. *)
Definition scanned_corrupt : world :=
  save_resume (all_dirty []) "resume" 0
    (list_to_map [("resume/a.resume", "d9:info-hashaa4:name1:ae");
                  ("resume/b.resume", "d9:info-hashbb4:name1:be");
                  ("resume/c.resume", "not a resume record");
                  ("resume/d.resume", "d9:info-hashdd4:name1:de")]).

(** The parameters every loaded torrent starts from. *)
Definition sample_model : add_torrent_params :=
  @Build_add_torrent_params host "model" None.

(** Ten torrents, the cursor on the first, the last save at time 0. *)
Definition ten : world :=
  World (all_dirty [2; 4]%nat) "resume" (seq 1 10) (Some 1%nat) 0 300 0 [] ∅.

(** Seven torrents, the cursor on the first, the last save at time 0. *)
Definition seven : world :=
  World (all_dirty []) "resume" (seq 1 7) (Some 1%nat) 0 300 0 [] ∅.

(** Torrent 1 was added with its metadata and was then removed. *)
Definition added_then_removed : list tick :=
  [at_time 0 seeded (add_torrent_alert 1%nat);
   at_time 6 seeded (torrent_removed_alert 1%nat "ab")].

(** A resume directory with three readable resume files, one that cannot be
    read and a file of another kind. *)
Definition scanned : world :=
  save_resume (all_dirty []) "resume" 0
    (list_to_map [("resume/a.resume", "A"); ("resume/b.resume", "B");
                  ("resume/d.resume", "D"); ("resume/notes.txt", "N")]).

(** The fresh object of the build with assertions. *)
Definition debug_fresh : @world debug_host :=
  @save_resume debug_host (all_dirty []) "resume" 0 ∅.

(** Torrent 1 is added with its metadata and its resume data arrives, in
    the build with assertions. *)
Definition debug_answered_run : list (@tick debug_host) :=
  [@Build_tick debug_host 0 seeded
     (@deliver debug_host (@add_torrent_alert debug_host 1%nat));
   @Build_tick debug_host 5 seeded
     (@deliver debug_host
        (@save_resume_data_alert debug_host 1%nat
           {| payload_hash := "ab"; payload_rest := "4:name1:x" |}))].

End Sample.

(** * Properties *)

Section Properties.
Context {host : Host}.

Implicit Types (w : world) (h : torrent_handle) (l : list torrent_handle).

Lemma cursor_okb_sound w : cursor_okb w = true → cursor_ok w.
Proof.
  unfold cursor_okb, cursor_ok. intros [Hnd Hc]%andb_prop.
  split; [by apply bool_decide_eq_true in Hnd|].
  intros h Hh. rewrite Hh in Hc. by apply bool_decide_eq_true in Hc.
Qed.

(** ** Binding outcomes *)

Lemma bind_Done {A B} (m : outcome A) (k : A → outcome B) (b : B) :
  m ≫= k = Done b ↔ ∃ a, m = Done a ∧ k a = Done b.
Proof.
  destruct m as [a|f]; simpl; split.
  - intros H. exists a. auto.
  - intros (a' & Ha & Hk). congruence.
  - discriminate.
  - intros (a' & Ha & _). discriminate.
Qed.

(** Splits a hypothesis [x ← m; k = Done b] into its two halves. *)
Ltac unbind H :=
  let a := fresh "a" in
  let Ha := fresh "Hstep" in
  apply bind_Done in H; destruct H as (a & Ha & H).

Ltac unbind_as H a Ha :=
  apply bind_Done in H; destruct H as (a & Ha & H).

(** Brings a state built with the setters to its fields. *)
Ltac world_simpl :=
  unfold incr_in_flight, decr_in_flight, call_save_resume_data, set_ses,
    set_torrents, set_cursor, set_last_save, set_num_in_flight, set_calls,
    set_disk in *;
  simpl in *; rewrite <- ?app_assoc; simpl.

(** ** Traces *)

Lemma saves_requested_app (cs cs' : list engine_call) :
  saves_requested (cs ++ cs') = saves_requested cs ++ saves_requested cs'.
Proof. unfold saves_requested. apply omap_app. Qed.

Lemma slots_visited_app (cs cs' : list engine_call) :
  slots_visited (cs ++ cs') = slots_visited cs ++ slots_visited cs'.
Proof. unfold slots_visited. apply omap_app. Qed.

(** ** Accounting of requests: what one piece of code adds to the trace and
    to the counter *)

Lemma accounts_refl w : accounts 0 w w [].
Proof. split; [by rewrite app_nil_r | simpl; lia]. Qed.

Lemma accounts_trans a b w1 w2 w3 e1 e2 :
  accounts a w1 w2 e1 → accounts b w2 w3 e2 → accounts (a + b) w1 w3 (e1 ++ e2).
Proof.
  intros [Hc1 Hn1] [Hc2 Hn2]. split.
  - by rewrite Hc2, Hc1, app_assoc.
  - rewrite Hn2, Hn1, saves_requested_app, length_app. lia.
Qed.

Lemma accounts_request h w :
  accounts 0 w (incr_in_flight (call_save_resume_data h w)) [request_save h].
Proof. split; simpl; [done | lia]. Qed.

Lemma world_eq w1 w2 :
  m_ses w1 = m_ses w2 → m_resume_dir w1 = m_resume_dir w2 →
  m_torrents w1 = m_torrents w2 → m_cursor w1 = m_cursor w2 →
  m_last_save w1 = m_last_save w2 → m_interval w1 = m_interval w2 →
  m_num_in_flight w1 = m_num_in_flight w2 → calls w1 = calls w2 →
  disk w1 = disk w2 → w1 = w2.
Proof. destruct w1, w2; simpl; intros; by subst. Qed.

Lemma save_one_eq now w :
  save_one now w =
  match slot_of w with
  | None => Fault undefined_behaviour
  | Some h =>
      match node_after h (m_torrents w) with
      | Some c => Done (after_slot now h c w)
      | None => Fault undefined_behaviour
      end
  end.
Proof.
  unfold save_one, slot_of, query_need_save, iter_incr, after_slot.
  destruct (decide (m_cursor w = None)) as [Hc|Hc].
  - cbn [m_cursor set_cursor].
    destruct (set_begin (m_torrents w)) as [h|]; [|reflexivity].
    cbn beta iota zeta delta [m_ses set_cursor].
    destruct (need_save_resume_data (m_ses w) h).
    all: match goal with |- context [set_last_save ?t ?Y] =>
           set (X := set_last_save t Y) end.
    all: assert (m_cursor X = Some h) as -> by reflexivity.
    all: assert (m_torrents X = m_torrents w) as -> by reflexivity.
    all: destruct (node_after h (m_torrents w)); [|reflexivity].
    all: cbn [mbind outcome_bind]; f_equal; by apply world_eq.
  - destruct (m_cursor w) as [h|] eqn:Hcur; [|congruence].
    cbn beta iota zeta.
    destruct (need_save_resume_data (m_ses w) h).
    all: match goal with |- context [set_last_save ?t ?Y] =>
           set (X := set_last_save t Y) end.
    all: assert (m_cursor X = Some h) as -> by (subst X; simpl; exact Hcur).
    all: assert (m_torrents X = m_torrents w) as -> by reflexivity.
    all: destruct (node_after h (m_torrents w)); [|reflexivity].
    all: cbn [mbind outcome_bind]; f_equal; by apply world_eq.
Qed.

Lemma save_one_Done now w w' :
  save_one now w = Done w' ↔
  ∃ h c, slot_of w = Some h ∧ node_after h (m_torrents w) = Some c ∧
         w' = after_slot now h c w.
Proof.
  rewrite save_one_eq. split.
  - destruct (slot_of w) as [h|]; [|discriminate].
    destruct (node_after h (m_torrents w)) as [c|] eqn:Hn; [|discriminate].
    intros [= <-]. by exists h, c.
  - intros (h & c & -> & -> & ->). reflexivity.
Qed.

Lemma after_slot_calls now h c w :
  calls (after_slot now h c w) =
  calls w ++ ask_need_save h ::
    (if need_save_resume_data (m_ses w) h then [request_save h] else []).
Proof.
  unfold after_slot. destruct (need_save_resume_data (m_ses w) h); simpl;
    by rewrite <- ?app_assoc.
Qed.

Lemma after_slot_in_flight now h c w :
  m_num_in_flight (after_slot now h c w) =
  if need_save_resume_data (m_ses w) h
  then m_num_in_flight w + 1 else m_num_in_flight w.
Proof.
  unfold after_slot. by destruct (need_save_resume_data (m_ses w) h).
Qed.

Lemma after_slot_frame now h c w :
  m_torrents (after_slot now h c w) = m_torrents w ∧
  m_cursor (after_slot now h c w) = c ∧
  m_last_save (after_slot now h c w) = now ∧
  m_interval (after_slot now h c w) = m_interval w ∧
  disk (after_slot now h c w) = disk w ∧
  m_resume_dir (after_slot now h c w) = m_resume_dir w.
Proof.
  unfold after_slot. by destruct (need_save_resume_data (m_ses w) h).
Qed.

Lemma save_one_accounts now w w' :
  save_one now w = Done w' →
  ∃ extra, accounts 0 w w' extra.
Proof.
  intros (h & c & _ & _ & ->)%save_one_Done.
  eexists. split; [apply after_slot_calls|]. rewrite after_slot_in_flight.
  destruct (need_save_resume_data (m_ses w) h); simpl; lia.
Qed.

Lemma save_loop_accounts turns now w w' :
  save_loop turns now w = Done w' →
  ∃ extra, accounts 0 w w' extra.
Proof.
  revert w. induction turns as [|k IH]; intros w H; simpl in H.
  - inversion H; subst. eexists. apply accounts_refl.
  - unbind H. apply save_one_accounts in Hstep as [e1 H1].
    apply IH in H as [e2 H2]. exists (e1 ++ e2).
    apply (accounts_trans 0 0 _ _ _ _ _ H1 H2).
Qed.

Lemma save_pass_accounts now w w' :
  save_pass now w = Done w' →
  ∃ extra, accounts 0 w w' extra.
Proof.
  unfold save_pass. destruct (decide _).
  - intros H; inversion H; subst. eexists. apply accounts_refl.
  - apply save_loop_accounts.
Qed.

Lemma dispatch_accounts a w w' :
  dispatch a w = Done w' →
  ∃ extra, accounts (answers_of a) w w' extra.
Proof.
  destruct a as [h|h ih|h|h rd|h|h]; simpl; intros H.
  - inversion H; subst; clear H.
    destruct (has_metadata (m_ses w) h); simpl.
    + exists [request_save h]. destruct (decide _); split; simpl; try done; lia.
    + exists []. destruct (decide _); split; simpl; rewrite ?app_nil_r; try done; lia.
  - unbind H. unbind H. unbind H. inversion H; subst; clear H.
    exists []. destruct (a0.2); split; simpl; rewrite ?app_nil_r; try done; lia.
  - inversion H; subst. exists []. split; simpl; rewrite ?app_nil_r; try done; lia.
  - unbind H. inversion H; subst. exists [].
    split; simpl; rewrite ?app_nil_r; try done; lia.
  - unbind H. inversion H; subst. exists [].
    split; simpl; rewrite ?app_nil_r; try done; lia.
  - inversion H; subst. exists [request_save h]. split; simpl; try done; lia.
Qed.

Lemma handle_alert_accounts now a w w' :
  handle_alert now a w = Done w' →
  ∃ extra, accounts (answers_of a) w w' extra.
Proof.
  unfold handle_alert. intros H. unbind H.
  apply dispatch_accounts in Hstep as [e1 H1].
  apply save_pass_accounts in H as [e2 H2].
  exists (e1 ++ e2). replace (answers_of a) with (answers_of a + 0) by lia.
  eapply accounts_trans; eauto.
Qed.

Lemma save_all_visit_accounts w h :
  ∃ extra, accounts 0 w (save_all_visit w h) extra.
Proof.
  unfold save_all_visit; simpl.
  destruct (need_save_resume_data (m_ses w) h); eexists; split; simpl;
    rewrite <- ?app_assoc; try reflexivity;
    rewrite ?saves_requested_app, ?length_app; simpl; lia.
Qed.

Lemma foldl_visit_accounts l w :
  ∃ extra, accounts 0 w (foldl save_all_visit w l) extra.
Proof.
  revert w. induction l as [|h l IH]; intros w; simpl.
  - eexists. apply accounts_refl.
  - destruct (save_all_visit_accounts w h) as [e1 H1].
    destruct (IH (save_all_visit w h)) as [e2 H2].
    exists (e1 ++ e2). apply (accounts_trans 0 0 _ _ _ _ _ H1 H2).
Qed.

Lemma step_accounts t w w' :
  step t w = Done w' →
  ∃ extra, accounts (answers_of_tick t) w w' extra.
Proof.
  unfold step, answers_of_tick. destruct (tick_action t) as [a|]; intros H.
  - apply handle_alert_accounts in H as [e He]. exists e. exact He.
  - inversion H; subst; clear H. unfold save_all.
    destruct (foldl_visit_accounts (m_torrents (set_ses (tick_ses t) w))
                (set_ses (tick_ses t) w)) as [e He].
    exists e. exact He.
Qed.

(** ** The iteration order of the set *)

Lemma node_after_split h l1 l2 :
  h ∉ l1 → node_after h (l1 ++ h :: l2) = Some (head l2).
Proof.
  induction l1 as [|x l1 IH]; intros Hn; simpl.
  - by rewrite decide_True.
  - apply not_elem_of_cons in Hn as [Hx Hl].
    rewrite decide_False by congruence. by apply IH.
Qed.

Lemma node_after_elem h l :
  h ∈ l →
  ∃ l1 l2, l = (l1 ++ h :: l2) ∧ (h ∉ l1) ∧ node_after h l = Some (head l2).
Proof.
  intros Hin. apply list_elem_of_split_l in Hin as (l1 & l2 & -> & Hn).
  exists l1, l2. split_and!; [done | done | by apply node_after_split].
Qed.

Lemma node_after_inside h l x :
  NoDup l → node_after h l = Some (Some x) → x ∈ l ∧ x ≠ h.
Proof.
  intros Hnd Hx. destruct (decide (h ∈ l)) as [Hin|Hout].
  - destruct (node_after_elem h l Hin) as (l1 & l2 & -> & Hn & Heq).
    rewrite Heq in Hx. injection Hx as Hx.
    destruct l2 as [|y l2]; simplify_eq/=.
    apply NoDup_app in Hnd as (_ & _ & Hnd).
    apply NoDup_cons in Hnd as [Hh _]. split.
    + apply elem_of_app. right. apply list_elem_of_further, list_elem_of_here.
    + intros ->. apply Hh, list_elem_of_here.
  - exfalso. clear Hnd. induction l as [|y l IH]; simpl in Hx; [done|].
    destruct (decide (y = h)) as [->|Hy].
    + apply Hout, list_elem_of_here.
    + apply IH; [done|]. intros Hl. by apply Hout, list_elem_of_further.
Qed.

Lemma erase_absent h l : h ∉ l → filter (λ x, x ≠ h) l = l.
Proof.
  induction l as [|x l IH]; intros Hn; [done|].
  apply not_elem_of_cons in Hn as [Hx Hl].
  rewrite filter_cons_True by congruence. by rewrite IH.
Qed.

Lemma erase_split h l1 l2 :
  NoDup (l1 ++ h :: l2) → filter (λ x, x ≠ h) (l1 ++ h :: l2) = l1 ++ l2.
Proof.
  intros Hnd. apply NoDup_app in Hnd as (_ & H1 & Hnd).
  apply NoDup_cons in Hnd as [H2 _].
  rewrite filter_app, filter_cons_False by (intros ?; done).
  rewrite !erase_absent; [done | done |].
  intros Hin. apply (H1 h); [done | apply list_elem_of_here].
Qed.

(** ** The throttled pass runs to its end and keeps the cursor sound *)

Lemma save_one_total now w :
  cursor_ok w → m_torrents w ≠ [] →
  ∃ h c, slot_of w = Some h ∧ h ∈ m_torrents w ∧
         node_after h (m_torrents w) = Some c ∧
         save_one now w = Done (after_slot now h c w) ∧
         cursor_ok (after_slot now h c w).
Proof.
  intros [Hnd Hcur] Hne.
  assert (∃ h, slot_of w = Some h ∧ h ∈ m_torrents w) as (h & Hslot & Hin).
  { unfold slot_of. destruct (decide (m_cursor w = None)) as [E|E].
    - destruct (m_torrents w) as [|x l]; [done|]. exists x. split; [done|set_solver].
    - destruct (m_cursor w) as [h|] eqn:Hc; [|done]. eauto. }
  destruct (node_after_elem h _ Hin) as (l1 & l2 & Hl & Hn & Hafter).
  exists h, (head l2). split_and!; [done | done | done | |].
  - apply save_one_Done. eauto.
  - destruct (after_slot_frame now h (head l2) w) as (Ht & Hc & _).
    split; rewrite Ht; [done|]. rewrite Hc. intros x Hx.
    rewrite Hx in Hafter. by apply (node_after_inside h _ x Hnd) in Hafter as [? _].
Qed.

Lemma save_loop_total turns now w :
  cursor_ok w → m_torrents w ≠ [] →
  ∃ w' extra, save_loop turns now w = Done w' ∧ cursor_ok w' ∧
    m_torrents w' = m_torrents w ∧ m_interval w' = m_interval w ∧
    disk w' = disk w ∧ m_resume_dir w' = m_resume_dir w ∧
    calls w' = calls w ++ extra ∧ length (slots_visited extra) = turns.
Proof.
  revert w. induction turns as [|k IH]; intros w Hok Hne; simpl.
  - exists w, []. rewrite app_nil_r. done.
  - destruct (save_one_total now w Hok Hne) as (h & c & _ & _ & _ & Hone & Hok').
    rewrite Hone; simpl.
    destruct (after_slot_frame now h c w) as (Ft & _ & _ & Fi & Fd & Fr).
    destruct (IH (after_slot now h c w) Hok' ltac:(by rewrite Ft))
      as (w' & extra & Hloop & Hokw & Ht & Hi & Hd & Hr & Hc & Hlen).
    eexists w', _. split_and!; try congruence.
    + rewrite Hc, after_slot_calls, <- app_assoc. reflexivity.
    + rewrite slots_visited_app. simpl.
      destruct (need_save_resume_data (m_ses w) h); simpl; by rewrite Hlen.
Qed.

Lemma save_pass_total now w :
  cursor_ok w →
  ∃ w' extra, save_pass now w = Done w' ∧ cursor_ok w' ∧
    m_torrents w' = m_torrents w ∧ m_interval w' = m_interval w ∧
    disk w' = disk w ∧ m_resume_dir w' = m_resume_dir w ∧
    calls w' = calls w ++ extra ∧
    length (slots_visited extra) =
      (if decide (m_torrents w = []) then O else Z.to_nat (num_to_save now w)).
Proof.
  intros Hok. unfold save_pass. destruct (decide (m_torrents w = [])) as [E|E].
  - exists w, []. rewrite app_nil_r. done.
  - by apply save_loop_total.
Qed.

(** ** The reaction to an alert keeps the cursor sound *)

Lemma set_insert_perm h l : h ∉ l → set_insert h l ≡ₚ h :: l.
Proof.
  intros Hn. unfold set_insert. rewrite decide_False by done.
  by apply bucket_order_perm.
Qed.

Lemma set_insert_NoDup h l : NoDup l → NoDup (set_insert h l).
Proof.
  intros Hnd. destruct (decide (h ∈ l)) as [Hin|Hout].
  - unfold set_insert. by rewrite decide_True.
  - rewrite (set_insert_perm h l Hout). by apply NoDup_cons.
Qed.

Lemma set_insert_keeps h l x : x ∈ l → x ∈ set_insert h l.
Proof.
  intros Hx. destruct (decide (h ∈ l)) as [Hin|Hout].
  - unfold set_insert. by rewrite decide_True.
  - rewrite (set_insert_perm h l Hout). by apply list_elem_of_further.
Qed.

Lemma set_begin_elem l x : set_begin l = Some x → x ∈ l.
Proof. destruct l; intros [= ->]. apply list_elem_of_here. Qed.

Lemma dispatch_removed h ih l1 l2 w :
  NoDup (m_torrents w) → m_torrents w = l1 ++ h :: l2 →
  dispatch (torrent_removed_alert h ih) w = Done (after_removal h ih l1 l2 w).
Proof.
  intros Hnd Hl. pose proof Hnd as Hnd'. rewrite Hl in Hnd'.
  assert (h ∉ l1) as Hh1.
  { apply NoDup_app in Hnd' as (_ & H1 & _). intros Hin.
    apply (H1 h Hin), list_elem_of_here. }
  unfold dispatch, after_removal, set_find, torrent_assert.
  rewrite decide_True
    by (rewrite Hl; apply elem_of_app; right; apply list_elem_of_here).
  rewrite bool_decide_true by done. rewrite andb_false_r. simpl.
  destruct (decide (m_cursor w = Some h)) as [Hc|Hc]; simpl.
  - rewrite Hc. simpl. rewrite Hl, (node_after_split h l1 l2 Hh1). simpl.
    rewrite (erase_split h l1 l2 Hnd').
    destruct l2 as [|y l2]; simpl.
    + world_simpl. by rewrite app_nil_r.
    + by world_simpl.
  - world_simpl. rewrite Hl, (erase_split h l1 l2 Hnd'). done.
Qed.

Lemma after_removal_cursor_ok h ih l1 l2 w :
  cursor_ok w → m_torrents w = l1 ++ h :: l2 →
  cursor_ok (after_removal h ih l1 l2 w).
Proof.
  intros [Hnd Hcur] Hl. pose proof Hnd as Hnd'. rewrite Hl in Hnd'.
  split; simpl.
  - rewrite <- (erase_split h l1 l2 Hnd'). by apply NoDup_filter.
  - intros x. destruct (decide (m_cursor w = Some h)) as [Hc|Hc]; intros Hx.
    + apply head_Some_elem_of in Hx.
      apply elem_of_app. apply elem_of_app in Hx as [?|?]; auto.
    + pose proof (Hcur x Hx) as Hin. rewrite Hl in Hin.
      apply elem_of_app in Hin as [?|Hin]; [apply elem_of_app; auto|].
      apply elem_of_cons in Hin as [->|?]; [congruence|].
      apply elem_of_app; auto.
Qed.

Lemma dispatch_total a w :
  cursor_ok w → deliverable a w →
  ∃ w1 extra, dispatch a w = Done w1 ∧ cursor_ok w1 ∧
    m_interval w1 = m_interval w ∧ m_last_save w1 = m_last_save w ∧
    m_resume_dir w1 = m_resume_dir w ∧
    calls w1 = calls w ++ extra ∧ slots_visited extra = [].
Proof.
  intros Hok Hd. pose proof Hok as [Hnd Hcur].
  destruct a as [h|h ih|h|h rd|h|h]; simpl in Hd.
  - simpl. eexists _, (if has_metadata (m_ses w) h then [request_save h] else []).
    split; [reflexivity|].
    assert (∀ w2, m_torrents w2 = set_insert h (m_torrents w) →
              m_cursor w2 = m_cursor w →
              cursor_ok (if decide (m_cursor w2 = None)
                         then set_cursor (set_begin (m_torrents w2)) w2 else w2))
      as Hins.
    { intros w2 Ht Hc. destruct (decide (m_cursor w2 = None)) as [E|E];
        (split; simpl; rewrite Ht; [by apply set_insert_NoDup|]; intros x Hx).
      - by apply set_begin_elem.
      - rewrite Hc in Hx. by apply set_insert_keeps, Hcur. }
    destruct (has_metadata (m_ses w) h).
    + split; [by apply Hins|].
      destruct (decide _); world_simpl; done.
    + split; [by apply Hins|].
      destruct (decide _); world_simpl; rewrite app_nil_r; done.
  - destruct (node_after_elem h _ Hd) as (l1 & l2 & Hl & _ & _).
    exists (after_removal h ih l1 l2 w), [].
    rewrite (dispatch_removed h ih l1 l2 w Hnd Hl), app_nil_r.
    split_and!; try done. by apply after_removal_cursor_ok.
  - exists w, []. rewrite app_nil_r. done.
  - unfold dispatch, torrent_assert.
    assert (use_asserts && negb (bool_decide (0 < m_num_in_flight w)) = false) as ->.
    { destruct Hd as [->|Hpos]; [done|].
      rewrite bool_decide_true by done. apply andb_false_r. }
    simpl. eexists _, []. split; [reflexivity|]. world_simpl.
    rewrite app_nil_r. done.
  - unfold dispatch, torrent_assert.
    assert (use_asserts && negb (bool_decide (0 < m_num_in_flight w)) = false) as ->.
    { destruct Hd as [->|Hpos]; [done|].
      rewrite bool_decide_true by done. apply andb_false_r. }
    simpl. eexists _, []. split; [reflexivity|]. world_simpl.
    rewrite app_nil_r. done.
  - simpl. eexists _, [request_save h]. split; [reflexivity|]. by world_simpl.
Qed.

Lemma handle_alert_total now a w :
  cursor_ok w → deliverable a w →
  ∃ w1 w', dispatch a w = Done w1 ∧ save_pass now w1 = Done w' ∧
    handle_alert now a w = Done w' ∧ cursor_ok w1 ∧ cursor_ok w'.
Proof.
  intros Hok Hd.
  destruct (dispatch_total a w Hok Hd) as (w1 & e1 & H1 & Hok1 & _).
  destruct (save_pass_total now w1 Hok1) as (w' & e2 & H2 & Hok2 & _).
  exists w1, w'. unfold handle_alert. rewrite H1. simpl. done.
Qed.

Lemma run_app pre post w w' :
  run (pre ++ post) w = Done w' ↔
  ∃ wp, run pre w = Done wp ∧ run post wp = Done w'.
Proof.
  revert w. induction pre as [|t pre IH]; intros w; simpl.
  - split; [eauto | by intros (wp & [= ->] & H)].
  - rewrite bind_Done. split.
    + intros (w1 & H1 & (wp & Hp & Hq)%IH). exists wp. split; [|done].
      apply bind_Done. eauto.
    + intros (wp & (w1 & H1 & Hp)%bind_Done & Hq). exists w1. split; [done|].
      apply IH. eauto.
Qed.

Lemma answers_of_tick_count t :
  answers_of_tick t =
  Z.of_nat (completed [t]) + Z.of_nat (failed [t]).
Proof.
  destruct t as [tnow tses [[]|]]; reflexivity.
Qed.

Lemma completed_app ts ts' : completed (ts ++ ts') = (completed ts + completed ts')%nat.
Proof. unfold completed. by rewrite filter_app, length_app. Qed.

Lemma failed_app ts ts' : failed (ts ++ ts') = (failed ts + failed ts')%nat.
Proof. unfold failed. by rewrite filter_app, length_app. Qed.

(** The counter is the requests issued less the answers delivered, whatever
    the alerts are. *)
Lemma run_accounts ticks w w' :
  run ticks w = Done w' →
  ∃ extra, accounts (Z.of_nat (completed ticks) + Z.of_nat (failed ticks)) w w' extra.
Proof.
  revert w. induction ticks as [|t ticks IH]; intros w H; simpl in H.
  - inversion H; subst. exists []. apply accounts_refl.
  - unbind H. apply step_accounts in Hstep as [e1 H1].
    apply IH in H as [e2 H2]. exists (e1 ++ e2).
    change (t :: ticks) with ([t] ++ ticks).
    rewrite completed_app, failed_app, !Nat2Z.inj_add.
    rewrite answers_of_tick_count in H1.
    pose proof (accounts_trans _ _ _ _ _ _ _ H1 H2) as H3.
    destruct H3 as [Hc Hn]. split; [done|]. rewrite Hn. lia.
Qed.

Lemma answers_matched_prefix w0 pre post :
  answers_matched w0 (pre ++ post) → answers_matched w0 pre.
Proof.
  intros Hm pre' t post' wp -> Ht Hrun.
  apply (Hm pre' t (post' ++ post) wp); [by rewrite <- app_assoc | done | done].
Qed.

Lemma run_in_flight_nonneg ticks w0 w :
  m_num_in_flight w0 = Z.of_nat (length (saves_requested (calls w0))) →
  run ticks w0 = Done w →
  answers_matched w0 ticks →
  0 ≤ m_num_in_flight w.
Proof.
  intros H0. revert w. induction ticks as [|t pre IH] using rev_ind; intros w Hrun Hm.
  - simpl in Hrun. inversion Hrun; subst. lia.
  - apply run_app in Hrun as (wp & Hpre & Hlast). simpl in Hlast.
    unbind Hlast. inversion Hlast; subst; clear Hlast.
    pose proof (IH wp Hpre (answers_matched_prefix _ _ _ Hm)) as Hwp.
    destruct (step_accounts _ _ _ Hstep) as (extra & _ & Hn).
    destruct (is_completed t || is_failed t) eqn:Hans.
    + pose proof (Hm pre t [] wp eq_refl Hans Hpre) as Hlt.
      destruct (run_accounts _ _ _ Hpre) as (e & Hc & Hp).
      rewrite Hc, saves_requested_app, length_app in Hlt.
      rewrite answers_of_tick_count in Hn.
      assert (completed [t] + failed [t] ≤ 1)%nat.
      { destruct t as [tnow tses [[]|]]; cbv; lia. }
      lia.
    + rewrite answers_of_tick_count in Hn.
      assert (completed [t] + failed [t] = 0)%nat.
      { destruct t as [tnow tses [[]|]]; try discriminate Hans; cbv; lia. }
      lia.
Qed.

(** C1. Along every run of the object from its construction, in which every
    save-completed and every save-failed notification answers a request of
    its own issued before it, the in-flight counter is the number of save
    requests issued less the completed and the failed notifications
    delivered, and it is not negative.  The run is arbitrary, so this holds
    after each of its alerts. *)
Theorem in_flight_balance (s : session) (dir : string) (t0 : ptime)
    (files : gmap string string) (ticks : list tick) (w : world) :
  run ticks (save_resume s dir t0 files) = Done w →
  answers_matched (save_resume s dir t0 files) ticks →
  m_num_in_flight w =
    Z.of_nat (length (saves_requested (calls w)))
    - Z.of_nat (completed ticks) - Z.of_nat (failed ticks)
  ∧ 0 ≤ m_num_in_flight w.
Proof.
  intros Hrun Hm. split.
  - destruct (run_accounts _ _ _ Hrun) as (extra & Hc & Hn).
    rewrite Hc, Hn. simpl. lia.
  - by apply (run_in_flight_nonneg ticks (save_resume s dir t0 files)).
Qed.

(** ** Every state the object reaches has a sound cursor and the interval
    of five minutes *)

Lemma dispatch_Done_deliverable a w w1 :
  dispatch a w = Done w1 → deliverable a w.
Proof.
  destruct a as [h|h ih|h|h rd|h|h]; simpl; try done.
  - intros H. destruct (decide (h ∈ m_torrents w)) as [Hin|Hout]; [done|].
    exfalso. revert H. unfold set_find, torrent_assert.
    rewrite decide_False by done. rewrite bool_decide_false by (intros E; by apply E).
    destruct use_asserts; simpl; [done|].
    destruct (decide (m_cursor w = None)) as [E|E]; simpl; [by rewrite E|done].
  - unfold torrent_assert. destruct use_asserts; [|by left].
    destruct (bool_decide (0 < m_num_in_flight w)) eqn:E; simpl; [|done].
    apply bool_decide_eq_true in E. by right.
  - unfold torrent_assert. destruct use_asserts; [|by left].
    destruct (bool_decide (0 < m_num_in_flight w)) eqn:E; simpl; [|done].
    apply bool_decide_eq_true in E. by right.
Qed.

Lemma save_all_frame w :
  m_torrents (save_all w) = m_torrents w ∧ m_cursor (save_all w) = m_cursor w ∧
  m_interval (save_all w) = m_interval w.
Proof.
  assert (∀ l w0, m_torrents (foldl save_all_visit w0 l) = m_torrents w0 ∧
                   m_cursor (foldl save_all_visit w0 l) = m_cursor w0 ∧
                   m_interval (foldl save_all_visit w0 l) = m_interval w0) as Hfold.
  { induction l as [|h l IH]; intros w0; [done|]. simpl.
    destruct (IH (save_all_visit w0 h)) as (-> & -> & ->).
    unfold save_all_visit, query_need_save.
    by destruct (need_save_resume_data (m_ses w0) h). }
  apply Hfold.
Qed.

Lemma step_invariant t w w' :
  step t w = Done w' → cursor_ok w → m_interval w = 300 →
  cursor_ok w' ∧ m_interval w' = 300.
Proof.
  unfold step. intros H Hok Hi. destruct (tick_action t) as [a|].
  - assert (cursor_ok (set_ses (tick_ses t) w)) as Hok0 by exact Hok.
    unfold handle_alert in H. unbind H.
    pose proof (dispatch_Done_deliverable _ _ _ Hstep) as Hd.
    destruct (dispatch_total a _ Hok0 Hd) as (w1 & e1 & H1 & Hok1 & Hi1 & _).
    rewrite H1 in Hstep. injection Hstep as <-.
    destruct (save_pass_total (tick_now t) w1 Hok1)
      as (w2 & e2 & H2 & Hok2 & _ & Hi2 & _).
    rewrite H2 in H. injection H as <-. split; [done|].
    by rewrite Hi2, Hi1.
  - injection H as <-.
    destruct (save_all_frame (set_ses (tick_ses t) w)) as (Ht & Hc & Hiv).
    split; [|by rewrite Hiv].
    destruct Hok as [Hnd Hcur]. split; [by rewrite Ht|].
    intros h. rewrite Hc, Ht. apply Hcur.
Qed.

Lemma run_invariant ticks s dir t0 files w :
  run ticks (save_resume s dir t0 files) = Done w →
  cursor_ok w ∧ m_interval w = 300.
Proof.
  assert (cursor_ok (save_resume s dir t0 files)) as Hok0.
  { split; simpl; [constructor|done]. }
  assert (m_interval (save_resume s dir t0 files) = 300) as Hi0 by done.
  revert Hok0 Hi0. generalize (save_resume s dir t0 files). intros w0.
  revert w0. induction ticks as [|t ticks IH]; intros w0 Hok Hi H; simpl in H.
  - by injection H as <-.
  - unbind H. destruct (step_invariant _ _ _ Hstep Hok Hi) as [Hok1 Hi1].
    by apply (IH a).
Qed.

(** ** The size of a throttled pass *)

Lemma turns_clamped n elapsed interval :
  0 ≤ n → 0 < interval →
  Z.of_nat (Z.to_nat (Z.min ((n * elapsed) `quot` interval) n)) =
  Z.max 0 (Z.min n (n * elapsed / interval)).
Proof.
  intros Hn Hi. destruct (Z_le_gt_dec 0 (n * elapsed)) as [Hpos|Hneg].
  - rewrite Z.quot_div_nonneg by lia.
    assert (0 ≤ n * elapsed / interval) by (apply Z.div_pos; lia).
    rewrite Z2Nat.id by lia. lia.
  - assert ((n * elapsed) `quot` interval ≤ 0).
    { replace (n * elapsed) with (- (- (n * elapsed))) by lia.
      rewrite Z.quot_opp_l by lia.
      assert (0 ≤ (- (n * elapsed)) `quot` interval) by (apply Z.quot_pos; lia).
      lia. }
    assert (n * elapsed / interval ≤ 0) by (apply Z.div_le_upper_bound; lia).
    lia.
Qed.

(** ** Arithmetic on int *)

Lemma to_int_id z : in_int z → to_int z = z.
Proof.
  unfold in_int, int_min, int_max, to_int. intros Hz.
  rewrite Z.mod_small by lia. lia.
Qed.

Lemma to_int_in_int z : in_int (to_int z).
Proof.
  unfold in_int, int_min, int_max, to_int.
  pose proof (Z.mod_pos_bound (z + 2 ^ 31) (2 ^ 32)). lia.
Qed.

Lemma to_int_le z : 0 ≤ z → to_int z ≤ z.
Proof.
  unfold to_int. intros Hz.
  pose proof (Z.mod_le (z + 2 ^ 31) (2 ^ 32)). lia.
Qed.

Lemma quot_nonpos p i : p < i → 0 < i → p `quot` i ≤ 0.
Proof.
  intros Hp Hi. destruct (Z_le_gt_dec 0 p) as [Hpos|Hneg].
  - rewrite Z.quot_small by lia. lia.
  - replace p with (- (- p)) by lia. rewrite Z.quot_opp_l by lia.
    assert (0 ≤ (- p) `quot` i) by (apply Z.quot_pos; lia). lia.
Qed.

(** While the size of the set and its product with the seconds elapsed fit
    an int, [num_to_save] is what the arithmetic of the integers gives. *)
Lemma num_to_save_in_range now w :
  m_torrents w ≠ [] →
  in_int (Z.of_nat (length (m_torrents w))) →
  in_int (Z.of_nat (length (m_torrents w)) * elapsed_seconds now w) →
  num_to_save now w =
  Z.min ((Z.of_nat (length (m_torrents w)) * elapsed_seconds now w)
           `quot` m_interval w)
        (Z.of_nat (length (m_torrents w))).
Proof.
  intros Hne Hn Hp. unfold num_to_save, int_mul, total_seconds.
  fold (elapsed_seconds now w).
  assert (1 ≤ Z.of_nat (length (m_torrents w)))
    by (destruct (m_torrents w); [done|simpl; lia]).
  assert (in_int (elapsed_seconds now w)) as Hs.
  { unfold in_int, int_min, int_max in *. nia. }
  by rewrite (to_int_id _ Hn), (to_int_id _ Hs), (to_int_id _ Hp).
Qed.

(** C3 (as the code has it). A call of the handler consumes
    floor(n * s / interval) schedule slots, clamped to [0, n], where n is
    the size of the set the pass finds, s the whole seconds elapsed since
    the last save and interval the save interval in seconds, as long as n
    and n * s fit an int: all n (and no more) once s has reached the
    interval, none when less than a second has elapsed.  A slot is a turn
    of the loop, seen in the trace as the question whether the torrent
    under the cursor needs saving. *)
Theorem slots_per_tick (now : ptime) (a : alert) (w : world) :
  cursor_ok w → deliverable a w → 0 < m_interval w →
  ∃ w' extra,
    handle_alert now a w = Done w' ∧ calls w' = calls w ++ extra ∧
    let n := Z.of_nat (length (m_torrents w')) in
    let s := elapsed_seconds now w in
    in_int n → in_int (n * s) →
    Z.of_nat (length (slots_visited extra)) =
      Z.max 0 (Z.min n (n * s / m_interval w)) ∧
    (m_interval w ≤ s → Z.of_nat (length (slots_visited extra)) = n) ∧
    (s = 0 → Z.of_nat (length (slots_visited extra)) = 0).
Proof.
  intros Hok Hd Hi.
  destruct (dispatch_total a w Hok Hd)
    as (w1 & e1 & H1 & Hok1 & Hi1 & Hl1 & _ & Hc1 & Hs1).
  destruct (save_pass_total now w1 Hok1)
    as (w' & e2 & H2 & _ & Ht2 & _ & _ & _ & Hc2 & Hs2).
  exists w', (e1 ++ e2).
  split; [|split]; [| |cbv zeta; intros Hn Hp].
  - unfold handle_alert. rewrite H1. exact H2.
  - by rewrite Hc2, Hc1, app_assoc.
  - assert (elapsed_seconds now w1 = elapsed_seconds now w) as Hsec
      by (unfold elapsed_seconds; by rewrite Hl1).
    assert (Z.of_nat (length (slots_visited (e1 ++ e2))) =
            Z.max 0 (Z.min (Z.of_nat (length (m_torrents w')))
              (Z.of_nat (length (m_torrents w')) * elapsed_seconds now w
               / m_interval w))) as Hslots.
    { rewrite slots_visited_app, Hs1. simpl. rewrite Hs2, Ht2.
      destruct (decide (m_torrents w1 = [])) as [E|E].
      - rewrite E. simpl. rewrite Z.div_0_l by lia. reflexivity.
      - rewrite Ht2 in Hn, Hp. rewrite <- Hsec in Hp.
        rewrite (num_to_save_in_range now w1 E Hn Hp), Hi1, Hsec.
        apply turns_clamped; lia. }
    split_and!.
    + exact Hslots.
    + intros Hel. rewrite Hslots.
      assert (Z.of_nat (length (m_torrents w')) ≤
              Z.of_nat (length (m_torrents w')) * elapsed_seconds now w
              / m_interval w).
      { apply Z.div_le_lower_bound; [done|]. nia. }
      lia.
    + intros Hel. rewrite Hslots, Hel, Z.mul_0_r, Z.div_0_l by lia. lia.
Qed.

(** C4. A turn of the loop of a throttled pass: the cursor, when at the end
    of the set, is first put on its start; the torrent under it is asked
    whether it needs saving, and a save is requested and the in-flight
    counter incremented exactly when it says so; whatever it says, the
    cursor moves to the next node and the time of the last save becomes now.
    The turns left over continue from the state the turn leaves. *)
Theorem pass_turn (now : ptime) (w : world) :
  cursor_ok w → m_torrents w ≠ [] →
  ∃ h c w',
    save_one now w = Done w' ∧
    (m_cursor w = None → set_begin (m_torrents w) = Some h) ∧
    (m_cursor w ≠ None → m_cursor w = Some h) ∧
    calls w' = calls w ++ ask_need_save h ::
      (if need_save_resume_data (m_ses w) h then [request_save h] else []) ∧
    m_num_in_flight w' =
      (if need_save_resume_data (m_ses w) h
       then m_num_in_flight w + 1 else m_num_in_flight w) ∧
    node_after h (m_torrents w) = Some c ∧ m_cursor w' = c ∧
    m_last_save w' = now ∧ m_torrents w' = m_torrents w ∧
    ∀ turns, save_loop (S turns) now w = save_loop turns now w'.
Proof.
  intros Hok Hne.
  destruct (save_one_total now w Hok Hne) as (h & c & Hslot & _ & Hn & Hone & _).
  destruct (after_slot_frame now h c w) as (Ft & Fc & Fl & _).
  exists h, c, (after_slot now h c w). split_and!; try done.
  - intros E. unfold slot_of in Hslot. by rewrite decide_True in Hslot.
  - intros E. unfold slot_of in Hslot. by rewrite decide_False in Hslot.
  - apply after_slot_calls.
  - apply after_slot_in_flight.
  - intros turns. simpl. by rewrite Hone.
Qed.

(** C6. A metadata-received alert makes the handler request the resume data
    of that torrent at once: one request, one increment of the in-flight
    counter, whatever the set, the cursor, the clock and the time of the
    last save are, none of which it touches; the throttled pass then runs
    from the state so reached as on any other alert. *)
Theorem metadata_received_saves (now : ptime) (h : torrent_handle) (w : world) :
  ∃ w1,
    dispatch (metadata_received_alert h) w = Done w1 ∧
    handle_alert now (metadata_received_alert h) w = save_pass now w1 ∧
    calls w1 = calls w ++ [request_save h] ∧
    m_num_in_flight w1 = m_num_in_flight w + 1 ∧
    m_torrents w1 = m_torrents w ∧ m_cursor w1 = m_cursor w ∧
    m_last_save w1 = m_last_save w ∧ m_interval w1 = m_interval w.
Proof. eexists. split; [reflexivity|]. split_and!; reflexivity. Qed.

(** With an engine that clears the unsaved state of a torrent when its
    resume data is requested and keeps the torrents apart, the pass that
    follows asks for no second copy: over the whole handler the request made
    at once is the only one for that torrent. *)
Lemma save_loop_skips_clean turns now h w w' :
  (∀ e x y, x ≠ y →
     need_save_resume_data (save_resume_data x e) y = need_save_resume_data e y) →
  need_save_resume_data (m_ses w) h = false →
  save_loop turns now w = Done w' →
  ∃ extra, calls w' = calls w ++ extra ∧ h ∉ saves_requested extra.
Proof.
  intros Hframe. revert w. induction turns as [|k IH]; intros w Hclean H; simpl in H.
  - injection H as <-. exists []. rewrite app_nil_r. split; [done|].
    apply not_elem_of_nil.
  - unbind H. apply save_one_Done in Hstep as (x & c & _ & _ & ->).
    assert (need_save_resume_data (m_ses (after_slot now x c w)) h = false
            ∧ h ∉ saves_requested
                    (ask_need_save x ::
                     (if need_save_resume_data (m_ses w) x
                      then [request_save x] else []))) as [Hclean' Hno].
    { unfold after_slot.
      destruct (need_save_resume_data (m_ses w) x) eqn:Hx; simpl.
      - assert (x ≠ h) as Hne by congruence.
        split; [by rewrite Hframe|].
        intros Hin. apply list_elem_of_singleton in Hin. congruence.
      - split; [done|]. apply not_elem_of_nil. }
    destruct (IH _ Hclean' H) as (e2 & Hc & Hn).
    eexists. split.
    + rewrite Hc, after_slot_calls, <- app_assoc. reflexivity.
    + rewrite saves_requested_app. apply not_elem_of_app. done.
Qed.

Lemma metadata_received_once (now : ptime) (h : torrent_handle) (w : world) :
  cursor_ok w →
  (∀ e x, need_save_resume_data (save_resume_data x e) x = false) →
  (∀ e x y, x ≠ y →
     need_save_resume_data (save_resume_data x e) y = need_save_resume_data e y) →
  ∃ w' rest,
    handle_alert now (metadata_received_alert h) w = Done w' ∧
    calls w' = calls w ++ request_save h :: rest ∧
    (h ∉ saves_requested rest) ∧
    m_num_in_flight w' =
      m_num_in_flight w + 1 + Z.of_nat (length (saves_requested rest)).
Proof.
  intros Hok Hclear Hframe.
  destruct (handle_alert_total now (metadata_received_alert h) w Hok I)
    as (w1 & w' & H1 & H2 & H & _ & _).
  injection H1 as <-.
  assert (∃ rest, calls w' =
            calls (incr_in_flight (call_save_resume_data h w)) ++ rest
          ∧ h ∉ saves_requested rest) as (rest & Hc & Hno).
  { unfold save_pass in H2. destruct (decide _).
    - injection H2 as <-. exists []. rewrite app_nil_r. split; [done|].
      apply not_elem_of_nil.
    - eapply (save_loop_skips_clean _ now h _ w' Hframe); [|exact H2].
      simpl. apply Hclear. }
  exists w', rest. split; [exact H|]. split; [|split; [exact Hno|]].
  - rewrite Hc. simpl. by rewrite <- app_assoc.
  - destruct (save_pass_accounts _ _ _ H2) as (e2 & Hc2 & Hn2).
    rewrite Hc in Hc2. apply app_inv_head in Hc2 as <-.
    rewrite Hn2. simpl. lia.
Qed.

(** C7. Removing a torrent that is not in the set is not ignored.  With
    assertions compiled in the handler stops at its assertion; with
    assertions compiled out it goes on to erase the end iterator (after
    incrementing it, when the cursor is at the end too), which the container
    leaves undefined. *)
Theorem removal_of_untracked (now : ptime) (h : torrent_handle) (ih : string)
    (w : world) :
  h ∉ m_torrents w →
  handle_alert now (torrent_removed_alert h ih) w =
  Fault (if use_asserts then assertion_failed else undefined_behaviour).
Proof.
  intros Hout. unfold handle_alert, dispatch, set_find, torrent_assert.
  rewrite decide_False by done. rewrite bool_decide_false by (intros E; by apply E).
  destruct use_asserts; simpl; [done|].
  destruct (decide (m_cursor w = None)) as [E|E]; simpl; [by rewrite E|done].
Qed.

(** C5 (as the code has it). Removing a tracked torrent, whose node splits
    the iteration order in [l1] before it and [l2] after it: when the cursor
    is on that node it moves to the next node, or to the start of the set
    when the node was the last, so that it is on a torrent of the set
    whenever one is left; otherwise it stays where it is.  After the removal
    and after the whole handler the cursor is on a torrent of the set or at
    its end. *)
Theorem removal_moves_cursor (now : ptime) (h : torrent_handle) (ih : string)
    (l1 l2 : list torrent_handle) (w : world) :
  cursor_ok w → m_torrents w = l1 ++ h :: l2 →
  ∃ w1 w',
    dispatch (torrent_removed_alert h ih) w = Done w1 ∧
    handle_alert now (torrent_removed_alert h ih) w = Done w' ∧
    m_torrents w1 = l1 ++ l2 ∧
    (m_cursor w = Some h →
       m_cursor w1 = head (l2 ++ l1) ∧ (l1 ++ l2 ≠ [] → cursor_on_entity w1)) ∧
    (m_cursor w ≠ Some h → m_cursor w1 = m_cursor w) ∧
    cursor_ok w1 ∧ cursor_ok w'.
Proof.
  intros Hok Hl. pose proof Hok as [Hnd _].
  pose proof (dispatch_removed h ih l1 l2 w Hnd Hl) as H1.
  pose proof (after_removal_cursor_ok h ih l1 l2 w Hok Hl) as Hok1.
  destruct (save_pass_total now _ Hok1) as (w' & e2 & H2 & Hok2 & _).
  exists (after_removal h ih l1 l2 w), w'. split_and!; try done.
  - unfold handle_alert. rewrite H1. exact H2.
  - intros Hc. unfold cursor_on_entity, after_removal. simpl.
    rewrite decide_True by done. split; [done|].
    intros Hne. destruct (head (l2 ++ l1)) as [x|] eqn:Hx.
    + exists x. split; [done|]. simpl.
      apply head_Some_elem_of in Hx. apply elem_of_app.
      apply elem_of_app in Hx as [?|?]; auto.
    + apply head_None in Hx. apply app_eq_nil in Hx as [-> ->]. done.
  - intros Hc. simpl. by rewrite decide_False.
Qed.

(** C9. A save-completed alert makes the handler write the encoded payload
    to the file whose path is the resume directory joined with the
    hexadecimal form of the info-hash found in the payload and the
    extension .resume.  The set of torrents plays no part: the file is
    written whether or not the torrent is (still) in it and whether or not
    the file exists, and the set is left as it was. *)
Theorem save_completed_writes (now : ptime) (h : torrent_handle) (rd : entry)
    (w : world) :
  cursor_ok w → use_asserts = false ∨ 0 < m_num_in_flight w →
  ∃ w',
    handle_alert now (save_resume_data_alert h rd) w = Done w' ∧
    disk w' =
      <[combine_path (m_resume_dir w)
          (to_hex (info_hash_string rd) +:+ ".resume") := bencode rd]>
        (disk w) ∧
    disk w' !! combine_path (m_resume_dir w)
                 (to_hex (info_hash_string rd) +:+ ".resume")
      = Some (bencode rd) ∧
    m_torrents w' = m_torrents w.
Proof.
  intros Hok Hd.
  assert (∃ w1, dispatch (save_resume_data_alert h rd) w = Done w1 ∧
    w1 = set_disk (<[resume_file (m_resume_dir w) (info_hash_string rd)
                      := bencode rd]> (disk w)) (decr_in_flight w))
    as (w1 & H1 & Hw1).
  { eexists. split; [|reflexivity]. unfold dispatch, torrent_assert.
    assert (use_asserts && negb (bool_decide (0 < m_num_in_flight w)) = false) as ->.
    { destruct Hd as [->|Hpos]; [done|].
      rewrite bool_decide_true by done. apply andb_false_r. }
    reflexivity. }
  assert (cursor_ok w1) as Hok1 by (subst w1; exact Hok).
  destruct (save_pass_total now w1 Hok1)
    as (w' & e2 & H2 & _ & Ht & _ & Hdisk & _).
  exists w'. unfold handle_alert. rewrite H1. simpl. split; [exact H2|].
  rewrite Hdisk, Ht, Hw1. simpl. split_and!; try done.
  apply lookup_insert_eq.
Qed.

(** ** save_all *)

Lemma filter_agree {A} (P Q : A → Prop) `{!∀ x, Decision (P x)}
    `{!∀ x, Decision (Q x)} (l : list A) :
  (∀ x, x ∈ l → (P x ↔ Q x)) → filter P l = filter Q l.
Proof.
  induction l as [|x l IH]; intros Hpq; [done|].
  rewrite !filter_cons.
  rewrite IH by (intros y Hy; apply Hpq; by apply list_elem_of_further).
  destruct (decide (P x)) as [Hp|Hp], (decide (Q x)) as [Hq|Hq]; try done;
    exfalso; apply (Hpq x (list_elem_of_here _ _)) in Hp || apply Hp;
    try done; by apply (Hpq x (list_elem_of_here _ _)).
Qed.

Lemma save_all_fold l w :
  NoDup l →
  (∀ e h h', h ≠ h' →
     need_save_resume_data (save_resume_data h e) h' = need_save_resume_data e h') →
  ∃ extra,
    calls (foldl save_all_visit w l) = calls w ++ extra ∧
    saves_requested extra =
      filter (λ h, need_save_resume_data (m_ses w) h = true) l ∧
    slots_visited extra = l ∧
    m_num_in_flight (foldl save_all_visit w l) =
      m_num_in_flight w + Z.of_nat (length (saves_requested extra)) ∧
    m_torrents (foldl save_all_visit w l) = m_torrents w ∧
    m_cursor (foldl save_all_visit w l) = m_cursor w ∧
    m_last_save (foldl save_all_visit w l) = m_last_save w.
Proof.
  intros Hnd Hframe. revert w. induction Hnd as [|h l Hh Hnd IH]; intros w.
  - exists []. simpl. rewrite app_nil_r. split_and!; try done. lia.
  - simpl. destruct (IH (save_all_visit w h))
      as (extra & Hc & Hreq & Hslots & Hn & Ht & Hcur & Hls).
    assert (filter (λ x, need_save_resume_data (m_ses (save_all_visit w h)) x = true) l
            = filter (λ x, need_save_resume_data (m_ses w) x = true) l) as Hsame.
    { apply filter_agree. intros x Hx. unfold save_all_visit, query_need_save.
      destruct (need_save_resume_data (m_ses w) h); simpl; [|done].
      rewrite Hframe; [done|]. intros ->. done. }
    rewrite Hsame in Hreq.
    exists (ask_need_save h ::
            (if need_save_resume_data (m_ses w) h then [request_save h] else [])
            ++ extra).
    rewrite Hc, Hn, Ht, Hcur, Hls. rewrite filter_cons.
    unfold save_all_visit, query_need_save.
    destruct (need_save_resume_data (m_ses w) h) eqn:Hneed; simpl;
      rewrite ?Hreq, ?Hslots.
    + rewrite <- !app_assoc. simpl. split_and!; try done. lia.
    + rewrite <- !app_assoc. simpl. split_and!; try done.
Qed.

(** C10. [save_all] requests the resume data of just the torrents of the set
    that report unsaved state when it is called, one request and one
    increment of the in-flight counter each, in iteration order; the set,
    the cursor and the time of the last save stay as they are.  The engine
    is taken to keep the state of one torrent apart from requests made for
    another. *)
Theorem save_all_requests_dirty (w : world) :
  NoDup (m_torrents w) →
  (∀ e h h', h ≠ h' →
     need_save_resume_data (save_resume_data h e) h' = need_save_resume_data e h') →
  ∃ extra,
    calls (save_all w) = calls w ++ extra ∧
    saves_requested extra =
      filter (λ h, need_save_resume_data (m_ses w) h = true) (m_torrents w) ∧
    m_num_in_flight (save_all w) =
      m_num_in_flight w + Z.of_nat (length (saves_requested extra)) ∧
    m_torrents (save_all w) = m_torrents w ∧
    m_cursor (save_all w) = m_cursor w ∧
    m_last_save (save_all w) = m_last_save w.
Proof.
  intros Hnd Hframe. unfold save_all.
  destruct (save_all_fold (m_torrents w) w Hnd Hframe)
    as (extra & Hc & Hreq & _ & Hn & Ht & Hcur & Hls).
  exists extra. done.
Qed.

(** ** load *)

(** C8. Over a directory that lists [names], [load] goes through all of
    them, passes over the names whose extension is not .resume and over the
    files it cannot read, and hands the engine one add request for each
    other file, in the order of the listing: the model parameters with the
    bytes of that file as resume data.  No error is left behind. *)
Theorem load_submits (names : list string) (model : add_torrent_params)
    (w : world) :
  load (listing names) model w =
  (None,
   (λ bytes, {| other_fields := other_fields model;
                resume_data_of := Some bytes |})
   <$> omap (λ name, disk w !! combine_path (m_resume_dir w) name)
         (filter (λ name, extension name = ".resume") names)).
Proof.
  induction names as [|name names IH]; [done|].
  simpl. rewrite filter_cons, IH.
  destruct (decide (extension name = ".resume")) as [E|E]; [|done].
  simpl. by destruct (disk w !! combine_path (m_resume_dir w) name).
Qed.

(** * Further properties of the code *)

(** ** The order of a pass *)

Lemma before_from_node h l : before_node h l ++ from_node h l = l.
Proof.
  induction l as [|x l IH]; [done|]. simpl.
  destruct (decide (x = h)); [done|]. simpl. by rewrite IH.
Qed.

Lemma nodes_split h l1 l2 :
  h ∉ l1 →
  before_node h (l1 ++ h :: l2) = l1 ∧ from_node h (l1 ++ h :: l2) = h :: l2.
Proof.
  induction l1 as [|x l1 IH]; intros Hn; simpl.
  - by rewrite !decide_True.
  - apply not_elem_of_cons in Hn as [Hx Hl]. destruct (IH Hl) as [-> ->].
    by rewrite !decide_False by congruence.
Qed.

Lemma round_from_perm w : round_from w ≡ₚ m_torrents w.
Proof.
  unfold round_from. destruct (slot_of w) as [h|]; [|done].
  rewrite Permutation_app_comm. by rewrite before_from_node.
Qed.

Lemma round_from_split w h l1 l2 :
  slot_of w = Some h → m_torrents w = l1 ++ h :: l2 → h ∉ l1 →
  round_from w = h :: l2 ++ l1.
Proof.
  intros Hs Hl Hn. unfold round_from. rewrite Hs, Hl.
  by destruct (nodes_split h l1 l2 Hn) as [-> ->].
Qed.

(** One turn visits the first node of the round and leaves the round turned
    by one. *)
Lemma save_one_round now w :
  cursor_ok w → m_torrents w ≠ [] →
  ∃ h r c,
    round_from w = h :: r ∧
    save_one now w = Done (after_slot now h c w) ∧
    cursor_ok (after_slot now h c w) ∧
    round_from (after_slot now h c w) = r ++ [h].
Proof.
  intros Hok Hne. pose proof Hok as [Hnd _].
  destruct (save_one_total now w Hok Hne) as (h & c & Hslot & Hin & Hn & Hone & Hok').
  destruct (node_after_elem h _ Hin) as (l1 & l2 & Hl & Hh1 & Hafter).
  rewrite Hafter in Hn. injection Hn as <-.
  exists h, (l2 ++ l1), (head l2). split_and!; try done.
  - by apply round_from_split.
  - destruct (after_slot_frame now h (head l2) w) as (Ht & Hc & _).
    destruct l2 as [|y l2].
    + (* the node was the last: the cursor is at the end *)
      unfold round_from, slot_of. rewrite Hc, Ht, Hl. simpl.
      destruct (l1 ++ [h]) as [|x l] eqn:E; [by destruct l1|]. simpl.
      rewrite !decide_True by done. by rewrite app_nil_r.
    + change (head (y :: l2)) with (Some y) in *. rewrite Hl in Hnd.
      assert (y ∉ l1 ++ [h]) as Hy.
      { apply NoDup_app in Hnd as (_ & H1 & H2). apply NoDup_cons in H2 as [H2 _].
        intros [Hy|Hy]%elem_of_app.
        - apply (H1 y Hy). apply list_elem_of_further, list_elem_of_here.
        - apply list_elem_of_singleton in Hy as ->. apply H2, list_elem_of_here. }
      rewrite (round_from_split _ y (l1 ++ [h]) l2); [by rewrite <- app_assoc| | |done].
      * unfold slot_of. rewrite Hc. by destruct (decide _).
      * rewrite Ht, Hl. by rewrite <- app_assoc.
Qed.

Lemma save_loop_round turns now w :
  cursor_ok w → m_torrents w ≠ [] → (turns ≤ length (round_from w))%nat →
  ∃ w' extra,
    save_loop turns now w = Done w' ∧ cursor_ok w' ∧
    m_torrents w' = m_torrents w ∧
    calls w' = calls w ++ extra ∧
    slots_visited extra = take turns (round_from w) ∧
    round_from w' = drop turns (round_from w) ++ take turns (round_from w) ∧
    m_last_save w' = (if decide (turns = O) then m_last_save w else now).
Proof.
  revert w. induction turns as [|k IH]; intros w Hok Hne Hk.
  - exists w, []. simpl. rewrite !app_nil_r. done.
  - destruct (save_one_round now w Hok Hne) as (h & r & c & Hr & Hone & Hok1 & Hr1).
    destruct (after_slot_frame now h c w) as (Ft & _ & Fl & _).
    rewrite Hr in Hk. simpl in Hk.
    destruct (IH (after_slot now h c w) Hok1 ltac:(by rewrite Ft))
      as (w' & extra & Hloop & Hok' & Ht & Hc & Hs & Hround & Hls).
    { rewrite Hr1, length_app. simpl. lia. }
    exists w', (ask_need_save h ::
                (if need_save_resume_data (m_ses w) h then [request_save h] else [])
                ++ extra).
    rewrite Hr1 in Hs, Hround.
    rewrite take_app_le in Hs, Hround by lia.
    rewrite drop_app_le in Hround by lia.
    simpl. rewrite Hone. simpl. split_and!; try done.
    + congruence.
    + rewrite Hc, after_slot_calls, <- app_assoc. reflexivity.
    + rewrite Hr. simpl.
      destruct (need_save_resume_data (m_ses w) h); simpl; by rewrite Hs.
    + rewrite Hr, Hround. simpl. by rewrite <- app_assoc.
    + rewrite Hls, Fl. by destruct (decide (k = O)).
Qed.

Lemma num_to_save_le now w :
  (Z.to_nat (num_to_save now w) ≤ length (m_torrents w))%nat.
Proof.
  unfold num_to_save.
  pose proof (to_int_le (Z.of_nat (length (m_torrents w)))). lia.
Qed.

(** X1. A throttled pass meets the torrents in iteration order, from the
    node the cursor is on (the first node when the cursor is at the end),
    coming round to the start after the last node; it visits as many as
    [num_to_save] says and none of them twice. *)
Theorem pass_follows_the_round (now : ptime) (w : world) :
  cursor_ok w →
  ∃ w' extra,
    save_pass now w = Done w' ∧ calls w' = calls w ++ extra ∧
    slots_visited extra = take (Z.to_nat (num_to_save now w)) (round_from w) ∧
    NoDup (slots_visited extra) ∧
    (∀ h, h ∈ slots_visited extra → h ∈ m_torrents w) ∧
    m_last_save w' =
      (if decide (slots_visited extra = []) then m_last_save w else now).
Proof.
  intros Hok.
  assert (NoDup (round_from w)) as Hnd
    by (rewrite round_from_perm; apply Hok).
  assert (∀ k h, h ∈ take k (round_from w) → h ∈ m_torrents w) as Hsub.
  { intros k h Hin. rewrite <- round_from_perm. by apply (subseteq_take k). }
  unfold save_pass. destruct (decide (m_torrents w = [])) as [E|E].
  - exists w, []. rewrite app_nil_r. split_and!; try done.
    + assert (round_from w = []) as ->; [|by rewrite take_nil].
      apply Permutation_nil_r. by rewrite round_from_perm, E.
    + constructor.
    + intros h Hin. by apply elem_of_nil in Hin.
  - destruct (save_loop_round (Z.to_nat (num_to_save now w)) now w Hok E)
      as (w' & extra & Hloop & _ & _ & Hc & Hs & _ & Hls).
    { rewrite round_from_perm. apply num_to_save_le. }
    exists w', extra. split_and!; try done.
    + rewrite Hs. eapply sublist_NoDup; [exact Hnd|apply sublist_take].
    + intros h. rewrite Hs. apply Hsub.
    + rewrite Hls, Hs.
      destruct (decide (Z.to_nat (num_to_save now w) = O)) as [Hz|Hz].
      * rewrite Hz, take_0. by rewrite decide_True.
      * rewrite decide_False; [done|]. intros Hnil.
        apply take_nil_inv in Hnil as [?|Hnil]; [done|].
        apply E. apply Permutation_nil_r. by rewrite <- round_from_perm, Hnil.
Qed.

(** X2. Once the whole seconds elapsed have reached the interval, and as
    long as their product with the size of the set fits an int, the pass
    visits every torrent of the set exactly once, sets the time of the last
    save to now, and leaves the cursor so that the next pass starts with
    the same torrent as this one did. *)
Theorem full_pass_visits_all (now : ptime) (w : world) :
  cursor_ok w → m_torrents w ≠ [] → 0 < m_interval w →
  m_interval w ≤ elapsed_seconds now w →
  in_int (Z.of_nat (length (m_torrents w)) * elapsed_seconds now w) →
  ∃ w' extra,
    save_pass now w = Done w' ∧ calls w' = calls w ++ extra ∧
    slots_visited extra = round_from w ∧
    slots_visited extra ≡ₚ m_torrents w ∧
    round_from w' = round_from w ∧
    m_last_save w' = now.
Proof.
  intros Hok Hne Hi Hel Hp.
  assert (1 ≤ Z.of_nat (length (m_torrents w)))
    by (destruct (m_torrents w); [done|simpl; lia]).
  assert (in_int (Z.of_nat (length (m_torrents w)))) as Hn.
  { unfold in_int, int_min, int_max in *. nia. }
  assert (Z.to_nat (num_to_save now w) = length (round_from w)) as Hturns.
  { rewrite round_from_perm, (num_to_save_in_range now w Hne Hn Hp).
    assert (Z.of_nat (length (m_torrents w)) ≤
            (Z.of_nat (length (m_torrents w)) * elapsed_seconds now w)
              `quot` m_interval w).
    { rewrite Z.quot_div_nonneg by nia. apply Z.div_le_lower_bound; [done|]. nia. }
    lia. }
  destruct (save_loop_round (Z.to_nat (num_to_save now w)) now w Hok Hne)
    as (w' & extra & Hloop & _ & _ & Hc & Hs & Hround & Hls); [lia|].
  rewrite Hturns in Hs, Hround, Hls.
  rewrite take_ge in Hs, Hround by done. rewrite drop_all in Hround.
  exists w', extra. unfold save_pass. rewrite decide_False by done.
  split_and!; try done.
  - by rewrite Hs, round_from_perm.
  - rewrite Hls. rewrite decide_False; [done|].
    rewrite round_from_perm. by destruct (m_torrents w).
Qed.

(** X3. With a clock that has not run backwards, a call of the handler for
    the periodic statistics alert that is not yet owed a slot (n * s <
    interval, s the whole seconds elapsed) changes nothing: the time of the
    last save stays, so that the time elapsed keeps adding up over such
    calls. *)
Theorem quiet_tick (now : ptime) (h : torrent_handle) (w : world) :
  0 < m_interval w → m_last_save w ≤ now →
  Z.of_nat (length (m_torrents w)) * elapsed_seconds now w < m_interval w →
  handle_alert now (stats_alert h) w = Done w.
Proof.
  intros Hi Hmono Hlt. unfold handle_alert. simpl. unfold save_pass.
  destruct (decide _) as [E|E]; [done|].
  assert (1 ≤ Z.of_nat (length (m_torrents w)))
    by (destruct (m_torrents w); [done|simpl; lia]).
  assert (0 ≤ elapsed_seconds now w) as Hs.
  { unfold elapsed_seconds. apply Z.quot_pos; [lia|].
    pose proof ticks_per_second_pos. lia. }
  assert (num_to_save now w ≤ 0) as Hz.
  { unfold num_to_save, int_mul, total_seconds. fold (elapsed_seconds now w).
    set (p := to_int (to_int (Z.of_nat (length (m_torrents w)))
                      * to_int (elapsed_seconds now w))).
    assert (p < m_interval w) as Hp.
    { destruct (Z_lt_ge_dec
                  (Z.of_nat (length (m_torrents w)) * elapsed_seconds now w)
                  (2 ^ 31)) as [Hsmall|Hbig].
      - assert (in_int (Z.of_nat (length (m_torrents w)) * elapsed_seconds now w))
          as Hin by (unfold in_int, int_min, int_max; nia).
        destruct (decide (elapsed_seconds now w = 0)) as [E0|E0].
        + subst p. rewrite E0. change (to_int 0) with 0.
          rewrite Z.mul_0_r. change (to_int 0) with 0. lia.
        + assert (in_int (Z.of_nat (length (m_torrents w)))) as Hn
            by (unfold in_int, int_min, int_max; nia).
          assert (in_int (elapsed_seconds now w)) as Hs'
            by (unfold in_int, int_min, int_max; nia).
          subst p. rewrite (to_int_id _ Hn), (to_int_id _ Hs'), (to_int_id _ Hin).
          done.
      - pose proof (to_int_in_int
                      (to_int (Z.of_nat (length (m_torrents w)))
                       * to_int (elapsed_seconds now w))) as Hr.
        unfold in_int, int_min, int_max in Hr. subst p. lia. }
    pose proof (quot_nonpos p (m_interval w) Hp Hi). lia. }
  replace (Z.to_nat (num_to_save now w)) with O by lia. done.
Qed.

(** ** Faults *)

(** X5. In a build with assertions the in-flight counter is never negative
    in a state a run from the construction reaches: the handler stops at
    its assertion rather than count an answer for which no request is in
    flight. *)
Theorem debug_counter_never_negative (s : session) (dir : string) (t0 : ptime)
    (files : gmap string string) (ticks : list tick) (w : world) :
  use_asserts = true →
  run ticks (save_resume s dir t0 files) = Done w →
  0 ≤ m_num_in_flight w.
Proof.
  intros Hdbg.
  assert (0 ≤ m_num_in_flight (save_resume s dir t0 files)) as H0 by done.
  revert H0. generalize (save_resume s dir t0 files). intros w0. revert w0.
  induction ticks as [|t ticks IH]; intros w0 H0 H; simpl in H.
  - by injection H as <-.
  - unbind H. apply (IH a); [|done].
    destruct (step_accounts _ _ _ Hstep) as (extra & _ & Hn).
    unfold step in Hstep. unfold answers_of_tick in Hn.
    destruct (tick_action t) as [al|]; [|lia].
    unfold handle_alert in Hstep. unbind_as Hstep w1 Hd.
    apply dispatch_Done_deliverable in Hd.
    destruct al; simpl in *; try lia;
      (destruct Hd as [?|?]; [congruence|lia]).
Qed.

(** ** The set and the files *)

Lemma save_loop_Done_frame turns now w w' :
  save_loop turns now w = Done w' →
  m_torrents w' = m_torrents w ∧ disk w' = disk w ∧
  m_resume_dir w' = m_resume_dir w ∧ m_interval w' = m_interval w.
Proof.
  revert w. induction turns as [|k IH]; intros w H; simpl in H.
  - by injection H as <-.
  - unbind H. apply save_one_Done in Hstep as (h & c & _ & _ & ->).
    destruct (after_slot_frame now h c w) as (Ft & _ & _ & Fi & Fd & Fr).
    destruct (IH _ H) as (-> & -> & -> & ->). done.
Qed.

Lemma save_pass_Done_frame now w w' :
  save_pass now w = Done w' →
  m_torrents w' = m_torrents w ∧ disk w' = disk w ∧
  m_resume_dir w' = m_resume_dir w ∧ m_interval w' = m_interval w.
Proof.
  unfold save_pass. destruct (decide _).
  - by intros [= <-].
  - apply save_loop_Done_frame.
Qed.

Lemma set_insert_elem h l x : x ∈ set_insert h l ↔ x = h ∨ x ∈ l.
Proof.
  destruct (decide (h ∈ l)) as [Hin|Hout].
  - unfold set_insert. rewrite decide_True by done. split; [auto|].
    by intros [->|?].
  - rewrite (set_insert_perm h l Hout). apply elem_of_cons.
Qed.

(** X7. The set after the handler has dealt with an alert: the torrents that
    were in it, and the one added, less the one removed; no other alert
    changes who is in it. *)
Theorem tracked_after_alert (now : ptime) (a : alert) (w w' : world) :
  handle_alert now a w = Done w' →
  ∀ x, x ∈ m_torrents w' ↔
       match a with
       | add_torrent_alert h => x = h ∨ x ∈ m_torrents w
       | torrent_removed_alert h _ => x ≠ h ∧ x ∈ m_torrents w
       | _ => x ∈ m_torrents w
       end.
Proof.
  unfold handle_alert. intros H. unbind H.
  apply save_pass_Done_frame in H as (-> & _). intros x.
  destruct a as [h|h ih|h|h rd|h|h]; simpl in Hstep.
  - injection Hstep as <-.
    destruct (has_metadata (m_ses w) h); destruct (decide _); simpl;
      apply set_insert_elem.
  - unbind_as Hstep u Hu. unbind_as Hstep cw Hcw. unbind_as Hstep l Herase.
    injection Hstep as <-. unfold set_find in Herase.
    destruct (decide (h ∈ m_torrents w)); [|done].
    simpl in Herase. injection Herase as <-.
    destruct (cw.2); simpl; by rewrite list_elem_of_filter.
  - by injection Hstep as <-.
  - unbind Hstep. by injection Hstep as <-.
  - unbind Hstep. by injection Hstep as <-.
  - by injection Hstep as <-.
Qed.

Lemma tracked_after_alert_aux now h ih w w' :
  handle_alert now (torrent_removed_alert h ih) w = Done w' →
  h ∉ m_torrents w'.
Proof.
  unfold handle_alert. intros H. unbind H.
  apply save_pass_Done_frame in H as (-> & _). simpl in Hstep.
  unbind_as Hstep u Hu. unbind_as Hstep cw Hcw. unbind_as Hstep l Herase.
  injection Hstep as <-. unfold set_find in Herase.
  destruct (decide (h ∈ m_torrents w)); [|done].
  simpl in Herase. injection Herase as <-.
  destruct (cw.2); simpl; rewrite list_elem_of_filter; by intros [? _].
Qed.

Lemma handle_add_torrents now h w w' :
  handle_alert now (add_torrent_alert h) w = Done w' →
  m_torrents w' = set_insert h (m_torrents w).
Proof.
  unfold handle_alert. intros H. unbind H.
  apply save_pass_Done_frame in H as (-> & _). simpl in Hstep.
  injection Hstep as <-.
  by destruct (has_metadata (m_ses w) h); destruct (decide _).
Qed.

Lemma handle_removed_torrents now h ih w w' :
  handle_alert now (torrent_removed_alert h ih) w = Done w' →
  m_torrents w' = filter (λ x, x ≠ h) (m_torrents w).
Proof.
  unfold handle_alert. intros H. unbind H.
  apply save_pass_Done_frame in H as (-> & _). simpl in Hstep.
  unbind_as Hstep u Hu. unbind_as Hstep cw Hcw. unbind_as Hstep l Herase.
  injection Hstep as <-. unfold set_find in Herase.
  destruct (decide (h ∈ m_torrents w)); [|done].
  simpl in Herase. injection Herase as <-. by destruct (cw.2).
Qed.

Lemma erase_perm h l k : l ≡ₚ k → filter (λ x, x ≠ h) l ≡ₚ filter (λ x, x ≠ h) k.
Proof.
  induction 1 as [|x l k Hp IH|x y l|l k m H1 IH1 H2 IH2]; [done| | |].
  - rewrite !filter_cons. destruct (decide (x ≠ h)); [by constructor|done].
  - rewrite !filter_cons.
    destruct (decide (x ≠ h)), (decide (y ≠ h)); try done. apply perm_swap.
  - by etrans.
Qed.

(** X8. Adding a torrent that is not in the set and removing it again gives
    back the torrents that were in it, each once, whatever the engine and
    the clock did meanwhile; the insertion may have left them in another
    iteration order. *)
Theorem add_then_remove_restores_set (t1 t2 : tick) (h : torrent_handle)
    (ih : string) (w : world) :
  cursor_ok w → h ∉ m_torrents w →
  tick_action t1 = deliver (add_torrent_alert h) →
  tick_action t2 = deliver (torrent_removed_alert h ih) →
  ∃ w', run [t1; t2] w = Done w' ∧
        m_torrents w' ≡ₚ m_torrents w ∧ NoDup (m_torrents w').
Proof.
  intros Hok Hout H1 H2. simpl. unfold step. rewrite H1, H2.
  assert (cursor_ok (set_ses (tick_ses t1) w)) as Hok0 by exact Hok.
  destruct (handle_alert_total (tick_now t1) (add_torrent_alert h) _ Hok0 I)
    as (wa & w1 & _ & _ & Hadd & _ & Hok1).
  rewrite Hadd. cbn [mbind outcome_bind].
  pose proof (handle_add_torrents _ _ _ _ Hadd) as Ht1. simpl in Ht1.
  assert (cursor_ok (set_ses (tick_ses t2) w1)) as Hok1' by exact Hok1.
  assert (h ∈ m_torrents (set_ses (tick_ses t2) w1)) as Hin.
  { simpl. rewrite Ht1. apply set_insert_elem. by left. }
  destruct (handle_alert_total (tick_now t2) (torrent_removed_alert h ih) _
              Hok1' Hin) as (wb & w2 & _ & _ & Hrem & _ & Hok2).
  rewrite Hrem. cbn [mbind outcome_bind]. exists w2.
  split; [done|]. split; [|apply Hok2].
  rewrite (handle_removed_torrents _ _ _ _ _ Hrem). simpl. rewrite Ht1.
  rewrite (erase_perm h _ _ (set_insert_perm h _ Hout)).
  rewrite filter_cons_False by (intros Hne; by apply Hne).
  by rewrite erase_absent.
Qed.

(** X9. Removing a tracked torrent takes it out of the set and deletes its
    resume file, so that a later [load] of the resume directory does not
    bring it back. *)
Theorem removed_torrent_is_not_reloaded (now : ptime) (h : torrent_handle)
    (ih : string) (model : add_torrent_params) (w : world) :
  cursor_ok w → h ∈ m_torrents w →
  ∃ w',
    handle_alert now (torrent_removed_alert h ih) w = Done w' ∧
    (h ∉ m_torrents w') ∧
    disk w' = delete (resume_file (m_resume_dir w) ih) (disk w) ∧
    load (listing [to_hex ih +:+ ".resume"]) model w' = (None, []).
Proof.
  intros Hok Hin.
  destruct (handle_alert_total now (torrent_removed_alert h ih) w Hok Hin)
    as (w1 & w' & H1 & H2 & H & _ & _).
  exists w'. split; [exact H|].
  pose proof (tracked_after_alert_aux now h ih w w' H) as Hmem.
  apply save_pass_Done_frame in H2 as (Ht & Hd & Hr & _).
  destruct (node_after_elem h _ Hin) as (l1 & l2 & Hl & _ & _).
  rewrite (dispatch_removed h ih l1 l2 w (proj1 Hok) Hl) in H1.
  injection H1 as <-. simpl in Hd, Hr.
  split_and!; [exact Hmem | exact Hd |].
  simpl. destruct (decide _); [|done].
  rewrite Hr. unfold resume_file in Hd. rewrite Hd, lookup_delete_eq. done.
Qed.

Lemma save_all_visit_frame w h :
  disk (save_all_visit w h) = disk w ∧
  m_resume_dir (save_all_visit w h) = m_resume_dir w.
Proof.
  unfold save_all_visit, query_need_save.
  by destruct (need_save_resume_data (m_ses w) h).
Qed.

Lemma save_all_disk w : disk (save_all w) = disk w.
Proof.
  unfold save_all. generalize (m_torrents w). intros l. revert w.
  induction l as [|h l IH]; intros w; [done|]. simpl.
  rewrite IH. apply save_all_visit_frame.
Qed.

(** X10. The files of the resume directory change on two occasions only:
    the handler deletes one when a torrent is removed and writes one when a
    save has completed.  No other alert, and no call of [save_all], touches
    them. *)
Theorem disk_changes_only_on_removal_and_completion (t : tick) (w w' : world) :
  step t w = Done w' →
  (∀ a, tick_action t = deliver a →
        is_removal a = false ∧ is_save_completed a = false) →
  disk w' = disk w.
Proof.
  unfold step. intros H Hkind. destruct (tick_action t) as [a|].
  - destruct (Hkind a eq_refl) as [Hr Hc].
    unfold handle_alert in H. unbind_as H w1 Hd.
    apply save_pass_Done_frame in H as (_ & -> & _).
    destruct a as [h|h ih|h|h rd|h|h]; try discriminate; simpl in Hd.
    + injection Hd as <-.
      by destruct (has_metadata _ h); destruct (decide _).
    + by injection Hd as <-.
    + unbind_as Hd u Hu. by injection Hd as <-.
    + by injection Hd as <-.
  - injection H as <-. by rewrite save_all_disk.
Qed.

(** ** save_all *)

Lemma foldl_visit_asks l w :
  ∃ extra,
    calls (foldl save_all_visit w l) = calls w ++ extra ∧
    slots_visited extra = l ∧
    (∀ h, h ∈ saves_requested extra → h ∈ l) ∧
    m_num_in_flight (foldl save_all_visit w l) =
      m_num_in_flight w + Z.of_nat (length (saves_requested extra)).
Proof.
  revert w. induction l as [|x l IH]; intros w.
  - exists []. simpl. rewrite app_nil_r. split_and!; try done. lia.
  - simpl. destruct (IH (save_all_visit w x)) as (extra & Hc & Hs & Hsub & Hn).
    exists (ask_need_save x ::
            (if need_save_resume_data (m_ses w) x then [request_save x] else [])
            ++ extra).
    rewrite Hc, Hn. unfold save_all_visit, query_need_save.
    destruct (need_save_resume_data (m_ses w) x); simpl;
      rewrite <- ?app_assoc; simpl; rewrite ?Hs.
    + split_and!; try done; [|lia].
      intros h [->|Hh]%elem_of_cons; [apply list_elem_of_here|].
      by apply list_elem_of_further, Hsub.
    + split_and!; try done.
      intros h Hh. by apply list_elem_of_further, Hsub.
Qed.

(** X11. [save_all] asks every torrent of the set whether it needs saving,
    each once and in iteration order, whatever the engine answers; it
    requests resume data of torrents of the set only and counts every
    request it makes. *)
Theorem save_all_asks_each_once (w : world) :
  ∃ extra,
    calls (save_all w) = calls w ++ extra ∧
    slots_visited extra = m_torrents w ∧
    (∀ h, h ∈ saves_requested extra → h ∈ m_torrents w) ∧
    m_num_in_flight (save_all w) =
      m_num_in_flight w + Z.of_nat (length (saves_requested extra)).
Proof. apply foldl_visit_asks. Qed.

Lemma foldl_visit_cleans l w :
  (∀ e x, need_save_resume_data (save_resume_data x e) x = false) →
  (∀ e x y, x ≠ y →
     need_save_resume_data (save_resume_data x e) y = need_save_resume_data e y) →
  ∀ h, h ∈ l ∨ need_save_resume_data (m_ses w) h = false →
       need_save_resume_data (m_ses (foldl save_all_visit w l)) h = false.
Proof.
  intros Hclear Hframe. revert w. induction l as [|x l IH]; intros w h Hh.
  - destruct Hh as [Hh|Hh]; [by apply elem_of_nil in Hh|done].
  - simpl. apply IH.
    assert (need_save_resume_data (m_ses w) h = false →
            need_save_resume_data (m_ses (save_all_visit w x)) h = false) as Hkeep.
    { intros Hc. unfold save_all_visit, query_need_save.
      destruct (need_save_resume_data (m_ses w) x) eqn:Hx; simpl; [|done].
      destruct (decide (x = h)) as [->|Hne]; [apply Hclear|by rewrite Hframe]. }
    destruct Hh as [[->|Hh]%elem_of_cons|Hh]; [|by left|right; by apply Hkeep].
    right. unfold save_all_visit, query_need_save.
    destruct (need_save_resume_data (m_ses w) x) eqn:Hx; simpl; [apply Hclear|done].
Qed.

Lemma foldl_visit_clean_set l w :
  (∀ h, h ∈ l → need_save_resume_data (m_ses w) h = false) →
  ∃ extra, calls (foldl save_all_visit w l) = calls w ++ extra ∧
           saves_requested extra = [] ∧
           m_num_in_flight (foldl save_all_visit w l) = m_num_in_flight w ∧
           m_ses (foldl save_all_visit w l) = m_ses w.
Proof.
  revert w. induction l as [|x l IH]; intros w Hclean.
  - exists []. simpl. by rewrite app_nil_r.
  - simpl.
    assert (save_all_visit w x = set_calls (calls w ++ [ask_need_save x]) w) as ->.
    { unfold save_all_visit, query_need_save.
      by rewrite (Hclean x (list_elem_of_here _ _)). }
    destruct (IH (set_calls (calls w ++ [ask_need_save x]) w))
      as (extra & Hc & Hs & Hn & He).
    { intros h Hh. simpl. by apply Hclean, list_elem_of_further. }
    exists (ask_need_save x :: extra). rewrite Hc, Hn, He. simpl.
    by rewrite <- app_assoc.
Qed.

(** X12. With an engine that clears the unsaved state of a torrent when its
    resume data is requested and keeps the torrents apart, a second
    [save_all] right after the first requests nothing and leaves the
    in-flight counter alone. *)
Theorem save_all_again_requests_nothing (w : world) :
  (∀ e x, need_save_resume_data (save_resume_data x e) x = false) →
  (∀ e x y, x ≠ y →
     need_save_resume_data (save_resume_data x e) y = need_save_resume_data e y) →
  ∃ extra,
    calls (save_all (save_all w)) = calls (save_all w) ++ extra ∧
    saves_requested extra = [] ∧
    m_num_in_flight (save_all (save_all w)) = m_num_in_flight (save_all w).
Proof.
  intros Hclear Hframe.
  destruct (save_all_frame w) as (Ht & _).
  destruct (foldl_visit_clean_set (m_torrents (save_all w)) (save_all w))
    as (extra & Hc & Hs & Hn & _).
  { intros h Hh. rewrite Ht in Hh. unfold save_all.
    apply foldl_visit_cleans; auto. }
  exists extra. done.
Qed.

(** ** load *)

(** X13. When reading the directory fails part of the way, [load] leaves
    the error in [ec] and stops; the requests for the files met before the
    failure have been made all the same. *)
Theorem load_keeps_requests_before_error (names : list string) (code : nat)
    (model : add_torrent_params) (w : world) :
  load (listing_then names (dir_error code)) model w =
  (Some code, (load (listing names) model w).2).
Proof.
  induction names as [|name names IH]; [done|].
  simpl. rewrite IH.
  destruct (decide (extension name = ".resume")); [|done].
  by destruct (disk w !! combine_path (m_resume_dir w) name).
Qed.

(** X14. Whatever the directory yields, every request [load] makes carries
    the fields of the model and the bytes of a file of the resume directory
    as resume data (never the model's own resume data, never none), and
    there is at most one request for each name met. *)
Theorem load_requests_carry_file_bytes (dir : directory)
    (model : add_torrent_params) (w : world) :
  Forall (λ p, other_fields p = other_fields model ∧
               ∃ name bytes,
                 extension name = ".resume" ∧
                 disk w !! combine_path (m_resume_dir w) name = Some bytes ∧
                 resume_data_of p = Some bytes)
         (load dir model w).2 ∧
  (length (load dir model w).2 ≤ dir_length dir)%nat.
Proof.
  induction dir as [| |name next [IH1 IH2]]; simpl.
  - split; [constructor|lia].
  - split; [constructor|lia].
  - destruct (decide (extension name = ".resume")); [|split; [done|lia]].
    destruct (disk w !! combine_path (m_resume_dir w) name) as [bytes|] eqn:E;
      [|split; [done|lia]].
    simpl. split; [|lia]. constructor; [|done]. simpl. split; [done|].
    by exists name, bytes.
Qed.

(** X15. What the handler writes when a save has completed is what [load]
    hands back to the engine: given that the file name ends in the resume
    extension, loading that name gives one request, with the encoded
    payload as resume data. *)
Theorem saved_resume_data_is_loaded (now : ptime) (h : torrent_handle)
    (rd : entry) (model : add_torrent_params) (w : world) :
  cursor_ok w → use_asserts = false ∨ 0 < m_num_in_flight w →
  extension (to_hex (info_hash_string rd) +:+ ".resume") = ".resume" →
  ∃ w',
    handle_alert now (save_resume_data_alert h rd) w = Done w' ∧
    load (listing [to_hex (info_hash_string rd) +:+ ".resume"]) model w' =
    (None, [{| other_fields := other_fields model;
               resume_data_of := Some (bencode rd) |}]).
Proof.
  intros Hok Hd Hext.
  destruct (handle_alert_total now (save_resume_data_alert h rd) w Hok Hd)
    as (w1 & w' & H1 & H2 & H & _ & _).
  exists w'. split; [exact H|].
  apply save_pass_Done_frame in H2 as (_ & Hdisk & Hr & _).
  simpl in H1. unbind_as H1 u Hu. injection H1 as <-. simpl in Hdisk, Hr.
  simpl. rewrite decide_True by done.
  rewrite Hdisk, Hr. unfold resume_file. by rewrite lookup_insert_eq.
Qed.

(** ** Additions *)

(** X16. After the handler's reaction to an add alert the torrent is in the
    set and the cursor is on a torrent of the set: where it was when it was
    on one, on the first node when it was at the end. *)
Theorem add_puts_cursor_on_torrent (h : torrent_handle) (w : world) :
  cursor_ok w →
  ∃ w1,
    dispatch (add_torrent_alert h) w = Done w1 ∧
    h ∈ m_torrents w1 ∧ cursor_on_entity w1 ∧
    (m_cursor w ≠ None → m_cursor w1 = m_cursor w) ∧
    (m_cursor w = None → m_cursor w1 = set_begin (m_torrents w1)).
Proof.
  intros [Hnd Hcur]. eexists. split; [reflexivity|].
  assert (h ∈ set_insert h (m_torrents w)) as Hin
    by (apply set_insert_elem; by left).
  match goal with |- context [decide (m_cursor ?x = None)] => set (wx := x) end.
  assert (m_torrents wx = set_insert h (m_torrents w)) as Ht
    by (subst wx; by destruct (has_metadata (m_ses w) h)).
  assert (m_cursor wx = m_cursor w) as Hc
    by (subst wx; by destruct (has_metadata (m_ses w) h)).
  destruct (decide (m_cursor wx = None)) as [E|E]; unfold cursor_on_entity; simpl;
    rewrite ?Ht, ?Hc.
  - rewrite Hc in E. split_and!; [done| |done|done].
    destruct (set_insert h (m_torrents w)) as [|x l] eqn:El;
      [by apply elem_of_nil in Hin|].
    exists x. split; [done|apply list_elem_of_here].
  - rewrite Hc in E. split_and!; [done| |done|done].
    destruct (m_cursor w) as [c|] eqn:Hcw; [|done].
    exists c. split; [done|]. by apply set_insert_keeps, Hcur.
Qed.

(** ** Reachable states *)

(** X17. In every state a run from the construction reaches, the set has no
    torrent twice, the cursor is at the end of the set or on one of its
    torrents, and the save interval is the five minutes of the
    constructor. *)
Theorem reachable_state_sound (s : session) (dir : string) (t0 : ptime)
    (files : gmap string string) (ticks : list tick) (w : world) :
  run ticks (save_resume s dir t0 files) = Done w →
  NoDup (m_torrents w) ∧
  (∀ h, m_cursor w = Some h → h ∈ m_torrents w) ∧
  m_interval w = 300.
Proof.
  intros H. destruct (run_invariant _ _ _ _ _ _ H) as [[Hnd Hc] Hi]. done.
Qed.

End Properties.

(** * The code on the sample host built with assertions *)

Section DebugRuns.
#[local] Existing Instance Sample.debug_host.
Import Sample (debug_fresh, debug_answered_run).

Lemma debug_counter_never_negative_witness :
  run debug_answered_run debug_fresh
    = Done (final debug_answered_run debug_fresh) ∧
  0 ≤ m_num_in_flight (final debug_answered_run debug_fresh).
Proof.
  assert (run debug_answered_run debug_fresh
          = Done (final debug_answered_run debug_fresh)) as Hrun
    by (vm_compute; reflexivity).
  split; [exact Hrun|].
  exact (debug_counter_never_negative (Sample.all_dirty []) "resume" 0 ∅
           debug_answered_run _ eq_refl Hrun).
Defined.

End DebugRuns.

(** * The code on the sample host *)

Section Runs.
Import Sample.

Lemma sample_engine_frame (e : engine) (h h' : torrent_handle) :
  h ≠ h' →
  need_save_resume_data (save_resume_data h e) h' = need_save_resume_data e h'.
Proof.
  intros Hne. simpl. apply bool_decide_ext.
  rewrite list_elem_of_filter. split; [by intros [_ ?]|]. intros ?. split; [|done].
  intros ->. done.
Qed.

Lemma sample_engine_clears (e : engine) (h : torrent_handle) :
  need_save_resume_data (save_resume_data h e) h = false.
Proof.
  simpl. apply bool_decide_eq_false. rewrite list_elem_of_filter.
  intros [Hne _]. by apply Hne.
Qed.

Lemma answered_run_matched : answers_matched fresh answered_run.
Proof.
  intros pre t post wp Heq Hans Hrun. unfold answered_run in Heq.
  destruct pre as [|t1 [|t2 pre]]; simpl in Heq.
  - injection Heq as <- _. discriminate Hans.
  - injection Heq as <- <- _. vm_compute in Hrun. injection Hrun as <-.
    vm_compute. lia.
  - exfalso. injection Heq as _ _ Heq. by destruct pre.
Qed.

Lemma in_flight_balance_witness :
  run answered_run fresh = Done (final answered_run fresh) ∧
  answers_matched fresh answered_run ∧
  m_num_in_flight (final answered_run fresh) =
    Z.of_nat (length (saves_requested (calls (final answered_run fresh))))
    - Z.of_nat (completed answered_run) - Z.of_nat (failed answered_run) ∧
  0 ≤ m_num_in_flight (final answered_run fresh).
Proof.
  assert (run answered_run fresh = Done (final answered_run fresh)) as Hrun
    by (vm_compute; reflexivity).
  split; [exact Hrun|]. split; [exact answered_run_matched|].
  exact (in_flight_balance (all_dirty []) "resume" 0 ∅ answered_run _
           Hrun answered_run_matched).
Defined.

(** C2. Three torrents, all with unsaved progress, and two alerts 150 s
    apart: the elapsed times add up to the interval of 300 s, each call is
    granted floor(3 * 150 / 300) = 1 slot, and the third torrent has had
    none when the interval is over. *)
Theorem one_interval_two_of_three :
  run two_half_intervals fresh = Done (final two_half_intervals fresh) ∧
  m_torrents (final two_half_intervals fresh) = [1; 2; 3]%nat ∧
  slots_visited (calls (final two_half_intervals fresh)) = [1; 2]%nat ∧
  saves_requested (calls (final two_half_intervals fresh)) = [1; 2]%nat ∧
  m_cursor (final two_half_intervals fresh) = Some 3%nat.
Proof. vm_compute. done. Qed.

(** Ten torrents, an interval of 300 s and an alert 30 s after the last
    save: one slot. *)
Lemma slots_per_tick_witness :
  ∃ w' extra,
    handle_alert 30000 (stats_alert 1%nat) ten = Done w' ∧
    calls w' = calls ten ++ extra ∧
    in_int (Z.of_nat (length (m_torrents w'))) ∧
    in_int (Z.of_nat (length (m_torrents w')) * elapsed_seconds 30000 ten) ∧
    Z.of_nat (length (slots_visited extra)) =
      Z.max 0 (Z.min (Z.of_nat (length (m_torrents w')))
                 (Z.of_nat (length (m_torrents w')) * elapsed_seconds 30000 ten
                  / m_interval ten)) ∧
    Z.of_nat (length (slots_visited extra)) = 1.
Proof.
  assert (cursor_ok ten) as Hok by (apply cursor_okb_sound; vm_compute; reflexivity).
  assert (0 < m_interval ten) as Hi by (vm_compute; reflexivity).
  destruct (slots_per_tick 30000 (stats_alert 1%nat) ten Hok I Hi)
    as (w' & extra & H & Hc & Hslots).
  exists w', extra.
  assert (m_torrents w' = m_torrents ten) as Ht.
  { vm_compute in H. injection H as <-. reflexivity. }
  cbv zeta in Hslots. rewrite Ht in Hslots |- *.
  assert (in_int (Z.of_nat (length (m_torrents ten)))) as Hn
    by (vm_compute; split; discriminate).
  assert (in_int (Z.of_nat (length (m_torrents ten)) * elapsed_seconds 30000 ten))
    as Hp by (vm_compute; split; discriminate).
  destruct (Hslots Hn Hp) as (Hs & _ & _).
  split_and!; [exact H|exact Hc|exact Hn|exact Hp|exact Hs|].
  rewrite Hs. vm_compute. reflexivity.
Defined.

Example ten_torrents_one_slot :
  num_to_save 30000 ten = 1 ∧
  in_int (Z.of_nat (length (m_torrents ten)) * elapsed_seconds 30000 ten) ∧
  (∃ w', save_pass 30000 ten = Done w' ∧ slots_visited (calls w') = [1%nat] ∧
         saves_requested (calls w') = [] ∧ m_cursor w' = Some 2%nat ∧
         m_last_save w' = 30000).
Proof.
  split; [reflexivity|]. split; [vm_compute; split; discriminate|].
  eexists. vm_compute. done.
Qed.

(** C3, as stated, fails: seven torrents and an alert 42.9 s after the last
    save.  With the time elapsed as it is, floor(7 * 42.9 / 300) is 1; the
    handler counts 42 whole seconds, finds 7 * 42 / 300 = 0 and visits no
    torrent. *)
Lemma whole_seconds_fall_short :
  let n := Z.of_nat (length (m_torrents seven)) in
  let elapsed := 42900 - m_last_save seven in
  let interval := m_interval seven * ticks_per_second in
  Z.max 0 (Z.min n (n * elapsed / interval)) = 1 ∧
  handle_alert 42900 (stats_alert 1%nat) seven = Done seven ∧
  slots_visited (calls seven) = [].
Proof. vm_compute. done. Qed.

(** Beyond the int: ten torrents and 214748365 s since the last save.  The
    product 2147483650 wraps round to a negative int and no torrent is
    visited. *)
Example overlong_wait_visits_none :
  m_interval ten ≤ elapsed_seconds 214748365000 ten ∧
  ¬ in_int (Z.of_nat (length (m_torrents ten))
            * elapsed_seconds 214748365000 ten) ∧
  num_to_save 214748365000 ten = -7158278 ∧
  handle_alert 214748365000 (stats_alert 1%nat) ten = Done ten.
Proof.
  split_and!; [vm_compute; discriminate| |vm_compute; reflexivity ..].
  intros [_ H]. vm_compute in H. by apply H.
Qed.

Lemma pass_turn_witness :
  ∃ h c w',
    save_one 30 ten = Done w' ∧
    (m_cursor ten = None → set_begin (m_torrents ten) = Some h) ∧
    (m_cursor ten ≠ None → m_cursor ten = Some h) ∧
    calls w' = calls ten ++ ask_need_save h ::
      (if need_save_resume_data (m_ses ten) h then [request_save h] else []) ∧
    m_num_in_flight w' =
      (if need_save_resume_data (m_ses ten) h
       then m_num_in_flight ten + 1 else m_num_in_flight ten) ∧
    node_after h (m_torrents ten) = Some c ∧ m_cursor w' = c ∧
    m_last_save w' = 30 ∧ m_torrents w' = m_torrents ten ∧
    ∀ turns, save_loop (S turns) 30 ten = save_loop turns 30 w'.
Proof.
  apply (pass_turn 30 ten).
  - apply cursor_okb_sound. vm_compute. reflexivity.
  - discriminate.
Defined.

(** C5, as stated, fails: after a pass over both torrents the cursor is at
    the end of the set, and the removal of the first torrent leaves it
    there, with the second torrent still in the set. *)
Lemma cursor_at_end_after_removal :
  run pass_then_removal fresh = Done (final pass_then_removal fresh) ∧
  m_torrents (final pass_then_removal fresh) = [2%nat] ∧
  m_cursor (final pass_then_removal fresh) = None ∧
  ¬ cursor_on_entity (final pass_then_removal fresh).
Proof.
  split_and!; [vm_compute; reflexivity ..|].
  intros (h & Hc & _). vm_compute in Hc. discriminate Hc.
Qed.

(** The cursor is on torrent 1, which is removed: it moves on to torrent 2. *)
Lemma removal_moves_cursor_witness :
  ∃ w1 w',
    dispatch (torrent_removed_alert 1%nat "ab") ten = Done w1 ∧
    handle_alert 0 (torrent_removed_alert 1%nat "ab") ten = Done w' ∧
    m_torrents w1 = [] ++ seq 2 9 ∧
    (m_cursor ten = Some 1%nat →
       m_cursor w1 = head (seq 2 9 ++ []) ∧
       ([] ++ seq 2 9 ≠ [] → cursor_on_entity w1)) ∧
    (m_cursor ten ≠ Some 1%nat → m_cursor w1 = m_cursor ten) ∧
    cursor_ok w1 ∧ cursor_ok w'.
Proof.
  apply (removal_moves_cursor 0 1%nat "ab" [] (seq 2 9) ten).
  - apply cursor_okb_sound. vm_compute. reflexivity.
  - reflexivity.
Defined.

(** The metadata of torrent 2 arrives a whole interval after the last save:
    the pass that follows visits all ten torrents and asks torrent 4 for
    its resume data, but not torrent 2 a second time. *)
Example metadata_received_then_pass :
  ∃ w' rest,
    handle_alert 300000 (metadata_received_alert 2%nat) ten = Done w' ∧
    calls w' = calls ten ++ request_save 2%nat :: rest ∧
    (2%nat ∉ saves_requested rest) ∧
    m_num_in_flight w' =
      m_num_in_flight ten + 1 + Z.of_nat (length (saves_requested rest)).
Proof.
  apply (metadata_received_once 300000 2%nat ten).
  - apply cursor_okb_sound. vm_compute. reflexivity.
  - exact sample_engine_clears.
  - exact sample_engine_frame.
Qed.

(** A removal alert for torrent 7 reaches an object that tracks nothing. *)
Lemma removal_of_untracked_witness :
  (7%nat ∉ m_torrents fresh) ∧
  handle_alert 0 (torrent_removed_alert 7%nat "ab") fresh
  = Fault undefined_behaviour.
Proof.
  assert (7%nat ∉ m_torrents fresh) as Hout by (apply not_elem_of_nil).
  split; [exact Hout|].
  exact (removal_of_untracked 0 7%nat "ab" fresh Hout).
Defined.

(** Torrent 1 was removed, and with it its resume file; the resume data
    requested before the removal arrives and the file is there again. *)
Lemma save_completed_writes_witness :
  (1%nat ∉ m_torrents (final added_then_removed fresh)) ∧
  disk (final added_then_removed fresh) !! "resume/6162.resume" = None ∧
  ∃ w',
    handle_alert 7 (save_resume_data_alert 1%nat payload_ab)
      (final added_then_removed fresh) = Done w' ∧
    disk w' =
      <[combine_path (m_resume_dir (final added_then_removed fresh))
          (to_hex (info_hash_string payload_ab) +:+ ".resume")
        := bencode payload_ab]>
        (disk (final added_then_removed fresh)) ∧
    disk w' !! combine_path (m_resume_dir (final added_then_removed fresh))
                 (to_hex (info_hash_string payload_ab) +:+ ".resume")
      = Some (bencode payload_ab) ∧
    m_torrents w' = m_torrents (final added_then_removed fresh).
Proof.
  split; [vm_compute; apply not_elem_of_nil|]. split; [vm_compute; reflexivity|].
  apply (save_completed_writes 7 1%nat payload_ab (final added_then_removed fresh)).
  - apply cursor_okb_sound. vm_compute. reflexivity.
  - left. reflexivity.
Defined.

(** Of ten torrents, 2 and 4 have unsaved progress. *)
Lemma save_all_requests_dirty_witness :
  ∃ extra,
    calls (save_all ten) = calls ten ++ extra ∧
    saves_requested extra =
      filter (λ h, need_save_resume_data (m_ses ten) h = true) (m_torrents ten) ∧
    m_num_in_flight (save_all ten) =
      m_num_in_flight ten + Z.of_nat (length (saves_requested extra)) ∧
    m_torrents (save_all ten) = m_torrents ten ∧
    m_cursor (save_all ten) = m_cursor ten ∧
    m_last_save (save_all ten) = m_last_save ten.
Proof.
  apply (save_all_requests_dirty ten).
  - apply (bool_decide_unpack _). vm_compute. exact I.
  - exact sample_engine_frame.
Defined.

Example save_all_two_of_ten :
  saves_requested (calls (save_all ten)) = [2; 4]%nat ∧
  m_num_in_flight (save_all ten) = 2 ∧ m_cursor (save_all ten) = Some 1%nat.
Proof. vm_compute. done. Qed.

(** C8, as stated, fails: three valid resume files and a corrupt one, whose
    bytes are the encoding of no payload.  [load] reads the bytes and does
    not decode them: the corrupt file is handed to the engine like the
    others, four requests in all. *)
Lemma corrupt_file_is_submitted :
  (∀ p : entry, bencode p ≠ "not a resume record") ∧
  load (listing ["a.resume"; "b.resume"; "c.resume"; "d.resume"])
       sample_model scanned_corrupt
  = (None,
     [{| other_fields := "model";
         resume_data_of := Some "d9:info-hashaa4:name1:ae" |};
      {| other_fields := "model";
         resume_data_of := Some "d9:info-hashbb4:name1:be" |};
      {| other_fields := "model"; resume_data_of := Some "not a resume record" |};
      {| other_fields := "model";
         resume_data_of := Some "d9:info-hashdd4:name1:de" |}]) ∧
  length (load (listing ["a.resume"; "b.resume"; "c.resume"; "d.resume"])
               sample_model scanned_corrupt).2 ≠ 3%nat.
Proof.
  split; [intros [ph pr]; discriminate|].
  split; [vm_compute; reflexivity|vm_compute; discriminate].
Qed.

(** Three resume files that can be read and one that cannot: three
    requests, the scan going on past the file it could not read. *)
Example load_three_of_four :
  load (listing ["a.resume"; "b.resume"; "notes.txt"; "c.resume"; "d.resume"])
       {| other_fields := "model"; resume_data_of := None |} scanned
  = (None,
     [{| other_fields := "model"; resume_data_of := Some "A" |};
      {| other_fields := "model"; resume_data_of := Some "B" |};
      {| other_fields := "model"; resume_data_of := Some "D" |}]).
Proof. vm_compute. reflexivity. Qed.

(** ** Further properties, on the sample host *)

(** Ten torrents, the cursor on the first, 100 s after the last save: the
    pass visits torrents 1, 2 and 3. *)
Lemma pass_follows_the_round_witness :
  ∃ w' extra,
    save_pass 100000 ten = Done w' ∧ calls w' = calls ten ++ extra ∧
    slots_visited extra
      = take (Z.to_nat (num_to_save 100000 ten)) (round_from ten) ∧
    NoDup (slots_visited extra) ∧
    (∀ h, h ∈ slots_visited extra → h ∈ m_torrents ten) ∧
    m_last_save w' =
      (if decide (slots_visited extra = []) then m_last_save ten else 100000).
Proof.
  apply (pass_follows_the_round 100000 ten).
  apply cursor_okb_sound. vm_compute. reflexivity.
Defined.

Lemma full_pass_visits_all_witness :
  ∃ w' extra,
    save_pass 300000 ten = Done w' ∧ calls w' = calls ten ++ extra ∧
    slots_visited extra = round_from ten ∧
    slots_visited extra ≡ₚ m_torrents ten ∧
    round_from w' = round_from ten ∧
    m_last_save w' = 300000.
Proof.
  apply (full_pass_visits_all 300000 ten).
  - apply cursor_okb_sound. vm_compute. reflexivity.
  - discriminate.
  - vm_compute. reflexivity.
  - vm_compute. discriminate.
  - vm_compute. split; discriminate.
Defined.

(** Ten torrents and 29.9 s since the last save: 10 * 29 < 300. *)
Lemma quiet_tick_witness :
  handle_alert 29900 (stats_alert 1%nat) ten = Done ten.
Proof.
  apply (quiet_tick 29900 1%nat ten).
  - vm_compute. reflexivity.
  - vm_compute. discriminate.
  - vm_compute. reflexivity.
Defined.

Lemma tracked_after_alert_witness :
  handle_alert 0 (torrent_removed_alert 3%nat "ab") ten
    = Done (final [at_time 0 (m_ses ten) (torrent_removed_alert 3%nat "ab")] ten) ∧
  ∀ x, x ∈ m_torrents
             (final [at_time 0 (m_ses ten) (torrent_removed_alert 3%nat "ab")] ten)
       ↔ x ≠ 3%nat ∧ x ∈ m_torrents ten.
Proof.
  assert (handle_alert 0 (torrent_removed_alert 3%nat "ab") ten
    = Done (final [at_time 0 (m_ses ten) (torrent_removed_alert 3%nat "ab")] ten))
    as H by (vm_compute; reflexivity).
  split; [exact H|].
  exact (tracked_after_alert 0 (torrent_removed_alert 3%nat "ab") ten _ H).
Defined.

Lemma add_then_remove_restores_set_witness :
  ∃ w', run [at_time 10 seeded (add_torrent_alert 42%nat);
             at_time 20 (all_dirty []) (torrent_removed_alert 42%nat "ab")] ten
        = Done w' ∧
        m_torrents w' ≡ₚ m_torrents ten ∧ NoDup (m_torrents w').
Proof.
  apply (add_then_remove_restores_set _ _ 42%nat "ab" ten).
  - apply cursor_okb_sound. vm_compute. reflexivity.
  - apply (bool_decide_unpack _). vm_compute. exact I.
  - reflexivity.
  - reflexivity.
Defined.

(** Torrent 1 was added and its resume data saved; now it is removed. *)
Lemma removed_torrent_is_not_reloaded_witness :
  disk (final answered_run fresh) !! "resume/6162.resume"
    = Some (bencode payload_ab) ∧
  ∃ w',
    handle_alert 9 (torrent_removed_alert 1%nat "ab") (final answered_run fresh)
      = Done w' ∧
    (1%nat ∉ m_torrents w') ∧
    disk w' = delete (resume_file (m_resume_dir (final answered_run fresh)) "ab")
                (disk (final answered_run fresh)) ∧
    load (listing [to_hex "ab" +:+ ".resume"])
         sample_model w' = (None, []).
Proof.
  split; [vm_compute; reflexivity|].
  apply (removed_torrent_is_not_reloaded 9 1%nat "ab" _ (final answered_run fresh)).
  - apply cursor_okb_sound. vm_compute. reflexivity.
  - apply (bool_decide_unpack _). vm_compute. exact I.
Defined.

Lemma disk_changes_only_on_removal_and_completion_witness :
  step (at_time 300 seeded (metadata_received_alert 2%nat)) (final answered_run fresh)
    = Done (final [at_time 300 seeded (metadata_received_alert 2%nat)]
              (final answered_run fresh)) ∧
  disk (final [at_time 300 seeded (metadata_received_alert 2%nat)]
          (final answered_run fresh))
  = disk (final answered_run fresh).
Proof.
  assert (step (at_time 300 seeded (metadata_received_alert 2%nat))
            (final answered_run fresh)
          = Done (final [at_time 300 seeded (metadata_received_alert 2%nat)]
                    (final answered_run fresh))) as H
    by (vm_compute; reflexivity).
  split; [exact H|].
  apply (disk_changes_only_on_removal_and_completion _ _ _ H).
  intros a [= <-]. split; reflexivity.
Defined.

Lemma save_all_again_requests_nothing_witness :
  ∃ extra,
    calls (save_all (save_all ten)) = calls (save_all ten) ++ extra ∧
    saves_requested extra = [] ∧
    m_num_in_flight (save_all (save_all ten)) = m_num_in_flight (save_all ten).
Proof.
  apply (save_all_again_requests_nothing ten).
  - exact sample_engine_clears.
  - exact sample_engine_frame.
Defined.

Lemma saved_resume_data_is_loaded_witness :
  ∃ w',
    handle_alert 5 (save_resume_data_alert 1%nat payload_ab) ten = Done w' ∧
    load (listing [to_hex (info_hash_string payload_ab) +:+ ".resume"])
         sample_model w' =
    (None, [{| other_fields := other_fields sample_model;
               resume_data_of := Some (bencode payload_ab) |}]).
Proof.
  apply (saved_resume_data_is_loaded 5 1%nat payload_ab
           sample_model ten).
  - apply cursor_okb_sound. vm_compute. reflexivity.
  - left. reflexivity.
  - vm_compute. reflexivity.
Defined.

(** The first torrent is added to the fresh object. *)
Lemma add_puts_cursor_on_torrent_witness :
  ∃ w1,
    dispatch (add_torrent_alert 1%nat) fresh = Done w1 ∧
    1%nat ∈ m_torrents w1 ∧ cursor_on_entity w1 ∧
    (m_cursor fresh ≠ None → m_cursor w1 = m_cursor fresh) ∧
    (m_cursor fresh = None → m_cursor w1 = set_begin (m_torrents w1)).
Proof.
  apply (add_puts_cursor_on_torrent 1%nat fresh).
  apply cursor_okb_sound. vm_compute. reflexivity.
Defined.

Lemma reachable_state_sound_witness :
  run pass_then_removal fresh = Done (final pass_then_removal fresh) ∧
  NoDup (m_torrents (final pass_then_removal fresh)) ∧
  (∀ h, m_cursor (final pass_then_removal fresh) = Some h →
        h ∈ m_torrents (final pass_then_removal fresh)) ∧
  m_interval (final pass_then_removal fresh) = 300.
Proof.
  assert (run pass_then_removal fresh = Done (final pass_then_removal fresh))
    as H by (vm_compute; reflexivity).
  split; [exact H|].
  exact (reachable_state_sound (all_dirty []) "resume" 0 ∅ pass_then_removal _ H).
Defined.

End Runs.
